(** * simple-game-patcher: the patch-state engine

    A shallow embedding of [GamePatcher] (simple-game-patcher.py): the
    planning and execution passes of [apply], its rollback, [revert] with
    the pruning of the backup tree, and [status].

    The file system is a record of finite maps.  A relative path is the list
    of its components ([Path.parts]); the three roots of the program (target,
    patches, backup) are taken disjoint, and the two bookkeeping files of the
    backup root, [state.json] and [patcher.lock], are kept in fields of their
    own, next to the map of backed-up copies: a patch file named like one of
    them at the top level would land on them in the backup root, and is
    outside this model.  The digest of [hashlib.sha256] is a parameter of the
    development.  The operator's answers at the conflict prompt and the
    failure of a copy onto a target file are oracles passed to the
    operations.

    The failures covered are those of a copy onto a target file that raises
    before anything is written; a copy into the backup root does not fail
    here, and the directories of the target are not represented, the target
    being its regular files.  Theorems about a run that follows another one
    take a write oracle of their own for it, and those about what a run
    restores state as a hypothesis that its copies do not fail. *)

From stdpp Require Import base strings list gmap sorting.
From Stdlib Require Import Lia.

Abbreviation path := (list string).
Abbreviation content := string.
Abbreviation digest := string.

(** ** Data model *)

(** [PatchedFile]: one entry of the state file. *)
Record PatchedFile := mkPatchedFile {
  relative_path : path;
  original_checksum : option digest;   (* None if file didn't exist *)
  patched_checksum : digest;
  has_backup : bool
}.

#[global] Instance PatchedFile_eq_dec : EqDecision PatchedFile.
Proof. solve_decision. Defined.

(** The state is a dictionary from relative path to [PatchedFile]. *)
Abbreviation State := (gmap path PatchedFile).

(** The world one invocation runs in. *)
Record FS := mkFS {
  target_exists : bool;                        (* config.target.exists() *)
  target : gmap path content;                  (* regular files under the target root *)
  patch_files : option (list (path * content));(* None: patches directory missing;
                                                  otherwise its files, in rglob order *)
  backup : gmap path content;                  (* backed-up copies under the backup root *)
  backup_dirs : gset path;                     (* directories under the backup root *)
  state_file : option (gmap path PatchedFile); (* backup/state.json, None when absent *)
  lock_file : bool;                            (* backup/patcher.lock exists *)
  lock_held : bool                             (* another process holds the flock *)
}.

Definition set_target (t : gmap path content) (fs : FS) : FS :=
  mkFS (target_exists fs) t (patch_files fs) (backup fs) (backup_dirs fs)
       (state_file fs) (lock_file fs) (lock_held fs).

Definition set_patch_files (pf : option (list (path * content))) (fs : FS) : FS :=
  mkFS (target_exists fs) (target fs) pf (backup fs) (backup_dirs fs)
       (state_file fs) (lock_file fs) (lock_held fs).

Definition set_backup (b : gmap path content) (fs : FS) : FS :=
  mkFS (target_exists fs) (target fs) (patch_files fs) b (backup_dirs fs)
       (state_file fs) (lock_file fs) (lock_held fs).

Definition set_backup_dirs (d : gset path) (fs : FS) : FS :=
  mkFS (target_exists fs) (target fs) (patch_files fs) (backup fs) d
       (state_file fs) (lock_file fs) (lock_held fs).

Definition set_state_file (s : option (gmap path PatchedFile)) (fs : FS) : FS :=
  mkFS (target_exists fs) (target fs) (patch_files fs) (backup fs) (backup_dirs fs)
       s (lock_file fs) (lock_held fs).

Definition set_lock_file (b : bool) (fs : FS) : FS :=
  mkFS (target_exists fs) (target fs) (patch_files fs) (backup fs) (backup_dirs fs)
       (state_file fs) b (lock_held fs).

(** The conflict kinds [_check_conflicts] reports, and the answers of
    [_handle_conflict]. *)
Inductive conflict := modified.
Inductive action := abort | re_backup | force.

(** The messages of [PatcherError] that [apply] and [revert] raise. *)
Inductive PatcherError :=
  | LockHeld             (* Another patcher operation is in progress for this game *)
  | TargetMissing        (* Target directory does not exist *)
  | PatchSourceMissing   (* Patches directory not found *)
  | PatchingFailed.      (* Patching failed and was rolled back *)

(** How a command ends: the last line it prints, or the error it raises. *)
Inductive outcome :=
  | Patched (n : nat)        (* Successfully patched n file(s) *)
  | NoPatchFiles             (* No patch files found in ... *)
  | Aborted                  (* Patching aborted. *)
  | Reverted (n : nat)       (* Reverted n file(s) *)
  | NoPatchesApplied         (* No patches applied *)
  | Failed (e : PatcherError).

(** [main]: a [PatcherError] exits with status 1, a normal return with 0. *)
Definition exit_code (o : outcome) : nat :=
  match o with
  | Failed _ => 1
  | _ => 0
  end.

(** A pending operation of the planning pass.  [patch_file] and
    [target_file] of the source are [patches_dir / relative_path] and
    [target / relative_path]; the patch file is carried by its content. *)
Record Operation := mkOperation {
  op_patch_file : content;
  op_relative_path : path;
  op_needs_backup : bool;
  op_force_rebackup : bool
}.

(** The status of a tracked file. *)
Inductive file_status := MISSING | clean | MODIFIED.

#[global] Instance file_status_eq_dec : EqDecision file_status.
Proof. solve_decision. Defined.

(** Paths of the directories [mkdir(parents=True)] creates for the parent of
    [p]: every proper, non-empty prefix of [p]. *)
Fixpoint prefixes (p : path) : list path :=
  match p with
  | [] => []
  | x :: q => [] :: map (cons x) (prefixes q)
  end.

Definition parent_dirs (p : path) : gset path :=
  list_to_set (filter (λ d, d ≠ []) (prefixes p)).

(** [d] is the directory that holds [k]: [k.parent == d]. *)
Definition is_parent (d k : path) : bool :=
  bool_decide (k ≠ [] ∧ removelast k = d).

(** The two files the patcher keeps for itself at the top of the backup
    root, [state_file] and [lock_file] of [GamePatcher.__init__]. *)
Definition bookkeeping_name (p : path) : Prop :=
  p = ["state.json"] ∨ p = ["patcher.lock"].

#[global] Instance bookkeeping_name_dec (p : path) : Decision (bookkeeping_name p).
Proof. unfold bookkeeping_name. apply _. Defined.

(** ** The operations of [GamePatcher] *)

Section Patcher.

(** [_compute_checksum]: the SHA-256 hex digest of a file's bytes. *)
Variable compute_checksum : content → digest.

(** [_load_state]: the empty dictionary when the state file does not exist. *)
Definition load_state (fs : FS) : gmap path PatchedFile :=
  default ∅ (state_file fs).

(** [_save_state] *)
Definition save_state (st : gmap path PatchedFile) (fs : FS) : FS :=
  set_state_file (Some st) fs.

(** [GameLock.__enter__] opens the lock file for writing before it tries the
    lock, so the file exists afterwards either way. *)
Definition open_lock (fs : FS) : FS := set_lock_file true fs.

(** [_check_conflicts] *)
Definition check_conflicts (relative_path : path) (fs : FS)
    (state : gmap path PatchedFile) : option conflict :=
  match target fs !! relative_path with
  | None => None
  | Some c =>
      match state !! relative_path with
      | Some file_info =>
          if decide (compute_checksum c ≠ patched_checksum file_info)
          then Some modified
          else None
      | None => None
      end
  end.

(** The pre-flight loop of [apply].  [None] is the operator's abort. *)
Fixpoint plan (handle_conflict : path → conflict → action) (fs : FS)
    (state : gmap path PatchedFile) (files : list (path * content))
    : option (list Operation) :=
  match files with
  | [] => Some []
  | (relative_path, patch_file) :: rest =>
      let needs_backup := bool_decide (is_Some (target fs !! relative_path)) in
      let conflict :=
        if needs_backup then check_conflicts relative_path fs state else None in
      match conflict with
      | Some k =>
          match handle_conflict relative_path k with
          | abort => None
          | force =>
              ops ← plan handle_conflict fs state rest;
              Some (mkOperation patch_file relative_path false false :: ops)
          | re_backup =>
              ops ← plan handle_conflict fs state rest;
              Some (mkOperation patch_file relative_path needs_backup true :: ops)
          end
      | None =>
          ops ← plan handle_conflict fs state rest;
          Some (mkOperation patch_file relative_path needs_backup false :: ops)
      end
  end.

(** [_backup_file]: the parents of the backup file are created, then the
    target file is copied; [None] when [shutil.copy2] finds no source. *)
Definition backup_file (relative_path : path) (fs : FS) : FS * option unit :=
  let fs1 := set_backup_dirs (backup_dirs fs ∪ parent_dirs relative_path) fs in
  match target fs !! relative_path with
  | Some c => (set_backup (<[relative_path := c]> (backup fs1)) fs1, Some ())
  | None => (fs1, None)
  end.

(** [_restore_file].  [write_fails p] says that a copy onto the target file
    [p] raises; [None] is that exception, raised before anything changed. *)
Definition restore_file (write_fails : path → bool) (relative_path : path)
    (delete_backup : bool) (fs : FS) : option FS :=
  match backup fs !! relative_path with
  | Some c =>
      if write_fails relative_path then None
      else
        let fs1 := set_target (<[relative_path := c]> (target fs)) fs in
        Some (if delete_backup
              then set_backup (delete relative_path (backup fs1)) fs1
              else fs1)
  | None =>
      (* File didn't exist originally, remove it *)
      Some (set_target (delete relative_path (target fs)) fs)
  end.

(** The body of the execution loop for one operation: the file system
    afterwards and, unless an exception was raised, the new state entry. *)
Definition execute_op (write_fails : path → bool) (state : gmap path PatchedFile)
    (op : Operation) (fs : FS) : FS * option PatchedFile :=
  let relative_path := op_relative_path op in
  let backed :=
    if op_needs_backup op then
      if bool_decide (state !! relative_path = None)
         || negb (from_option has_backup false (state !! relative_path))
         || op_force_rebackup op
      then
        match backup_file relative_path fs with
        | (fs1, Some _) =>
            (fs1, Some (compute_checksum <$> target fs1 !! relative_path))
        | (fs1, None) => (fs1, None)
        end
      else
        (* Preserve original checksum from existing backup *)
        (fs, Some (state !! relative_path ≫= original_checksum))
    else (fs, Some None) in
  match backed with
  | (fs1, None) => (fs1, None)
  | (fs1, Some original) =>
      if write_fails relative_path then (fs1, None)
      else
        let fs2 :=
          set_target (<[relative_path := op_patch_file op]> (target fs1)) fs1 in
        (fs2, Some (mkPatchedFile relative_path original
                      (compute_checksum (op_patch_file op))
                      (op_needs_backup op)))
  end.

(** The execution loop, with its two accumulators.  The boolean tells
    whether the loop ran to its end ([true]) or an exception left it. *)
Fixpoint execute (write_fails : path → bool) (state : gmap path PatchedFile)
    (ops : list Operation) (fs : FS) (new_state : gmap path PatchedFile)
    (patched_files : list path)
    : FS * gmap path PatchedFile * list path * bool :=
  match ops with
  | [] => (fs, new_state, patched_files, true)
  | op :: rest =>
      match execute_op write_fails state op fs with
      | (fs1, Some entry) =>
          execute write_fails state rest fs1
                  (<[op_relative_path op := entry]> new_state)
                  (patched_files ++ [op_relative_path op])
      | (fs1, None) => (fs1, new_state, patched_files, false)
      end
  end.

(** The rollback loop: an exception of one restore is printed and the loop
    goes on. *)
Definition rollback (write_fails : path → bool) (patched_files : list path)
    (fs : FS) : FS :=
  foldl (λ fs relative_path,
           default fs (restore_file write_fails relative_path false fs))
        fs patched_files.

(** [GamePatcher.apply] *)
Definition apply (handle_conflict : path → conflict → action)
    (write_fails : path → bool) (fs0 : FS) : FS * outcome :=
  let fs := open_lock fs0 in
  if lock_held fs then (fs, Failed LockHeld)
  else if negb (target_exists fs) then (fs, Failed TargetMissing)
  else
    let state := load_state fs in
    match patch_files fs with
    | None => (fs, Failed PatchSourceMissing)
    | Some [] => (fs, NoPatchFiles)
    | Some files =>
        match plan handle_conflict fs state files with
        | None => (fs, Aborted)
        | Some operations =>
            match execute write_fails state operations fs state [] with
            | (fs1, new_state, patched_files, true) =>
                (save_state new_state fs1, Patched (length patched_files))
            | (fs1, _, patched_files, false) =>
                (save_state state (rollback write_fails patched_files fs1),
                 Failed PatchingFailed)
            end
        end
    end.

(** The test [dirpath.is_dir() and not any(dirpath.iterdir())] of the
    clean-up loop, followed by [rmdir]. *)
Definition dir_empty (dirpath : path) (fs : FS) : bool :=
  bool_decide (set_Forall (λ k, ¬ is_parent dirpath k)
                          (dom (backup fs) ∪ backup_dirs fs)).

Definition rmdir_if_empty (fs : FS) (dirpath : path) : FS :=
  if bool_decide (dirpath ∈ backup_dirs fs) && dir_empty dirpath fs
  then set_backup_dirs (backup_dirs fs ∖ {[dirpath]}) fs
  else fs.

(** The sort key of the clean-up loop: [len(p.parts)], reversed. *)
Definition deeper_first (a b : path) : Prop := length b ≤ length a.

#[global] Instance deeper_first_dec : RelDecision deeper_first.
Proof. intros a b. unfold deeper_first. apply _. Defined.

(** Everything [backup.rglob] yields, deepest entries first. *)
Definition rglob_sorted (fs : FS) : list path :=
  merge_sort deeper_first (elements (dom (backup fs) ∪ backup_dirs fs)).

Definition prune (fs : FS) : FS :=
  foldl rmdir_if_empty fs (rglob_sorted fs).

(** The loop of [revert] over the entries of the state: an exception of one
    restore is printed and the loop goes on. *)
Definition restore_all (write_fails : path → bool) (paths : list path)
    (fs : FS) : FS :=
  foldl (λ fs relative_path,
           default fs (restore_file write_fails relative_path true fs))
        fs paths.

(** [GamePatcher.revert] *)
Definition revert (write_fails : path → bool) (fs0 : FS) : FS * outcome :=
  let fs := open_lock fs0 in
  if lock_held fs then (fs, Failed LockHeld)
  else
    let state := load_state fs in
    if decide (state = ∅) then (fs, NoPatchesApplied)
    else
      let fs1 := restore_all write_fails (map_to_list state).*1 fs in
      (* Remove state file, then the empty directories *)
      let fs2 := set_state_file None fs1 in
      (prune fs2, Reverted (size state)).

(** The name [str] gives a relative path. *)
Definition path_str (p : path) : string := String.concat "/" p.

Definition key_le (a b : path * PatchedFile) : Prop :=
  String.leb (path_str a.1) (path_str b.1) = true.

#[global] Instance key_le_dec : RelDecision key_le.
Proof. intros a b. unfold key_le. apply _. Defined.

(** The classification of one tracked file in [status]. *)
Definition classify (fs : FS) (relative_path : path) (file_info : PatchedFile)
    : file_status :=
  match target fs !! relative_path with
  | None => MISSING
  | Some c =>
      if decide (compute_checksum c = patched_checksum file_info) then clean
      else MODIFIED
  end.

Definition count_status (s : file_status) (l : list (file_status * path)) : nat :=
  length (filter (λ x, x.1 = s) l).

(** [GamePatcher.status]: [None] for "No patches applied", otherwise the
    lines printed, in the order of the sorted keys, and the summary counts
    (clean, modified, missing). *)
Definition status (fs : FS)
    : option (list (file_status * path) * (nat * nat * nat)) :=
  let state := load_state fs in
  if decide (state = ∅) then None
  else
    let lines :=
      (λ e : path * PatchedFile, (classify fs e.1 e.2, e.1))
        <$> merge_sort key_le (map_to_list state) in
    Some (lines,
          (count_status clean lines, count_status MODIFIED lines,
           count_status MISSING lines)).

(** ** Notions used to state the properties *)

(** The execution pass takes a fresh backup for [op]: the condition of the
    two nested tests of the loop body. *)
Definition fresh_backup (state : gmap path PatchedFile) (op : Operation) : bool :=
  op_needs_backup op
  && (bool_decide (state !! op_relative_path op = None)
      || negb (from_option has_backup false (state !! op_relative_path op))
      || op_force_rebackup op).

(** What the planning pass decides for one candidate. *)
Definition planned (handle_conflict : path → conflict → action) (fs : FS)
    (state : gmap path PatchedFile) (f : path * content) (op : Operation) : Prop :=
  op_relative_path op = f.1 ∧ op_patch_file op = f.2 ∧
  match check_conflicts f.1 fs state with
  | Some k =>
      (handle_conflict f.1 k = force
       ∧ op_needs_backup op = false ∧ op_force_rebackup op = false)
      ∨ (handle_conflict f.1 k = re_backup
         ∧ op_needs_backup op = true ∧ op_force_rebackup op = true)
  | None =>
      op_needs_backup op = bool_decide (is_Some (target fs !! f.1))
      ∧ op_force_rebackup op = false
  end.

(** The state entry the execution pass records for [op], when [t] is the
    target file found at its path. *)
Definition entry_of (state : gmap path PatchedFile) (op : Operation)
    (t : option content) : PatchedFile :=
  mkPatchedFile (op_relative_path op)
    (if fresh_backup state op then compute_checksum <$> t
     else if op_needs_backup op
          then state !! op_relative_path op ≫= original_checksum
          else None)
    (compute_checksum (op_patch_file op))
    (op_needs_backup op).

(** A directory has an entry, file or directory, right below it. *)
Definition has_child (d : path) (fs : FS) : Prop :=
  ∃ k, k ∈ dom (backup fs) ∪ backup_dirs fs ∧ is_parent d k = true.





End Patcher.

(** ** Statements that do not hold in general *)

(** The round trip without condition on the state and the backups found:
    whenever [apply] succeeds without conflict, [revert] gives every file that
    existed its content of before the [apply] and removes every file that did
    not exist. *)
Definition roundtrip_unconditional (compute_checksum : content → digest) : Prop :=
  ∀ handle_conflict write_fails fs fs1 n files,
    patch_files fs = Some files →
    NoDup files.*1 →
    (∀ p c, (p, c) ∈ files →
       check_conflicts compute_checksum p fs (load_state fs) = None) →
    apply compute_checksum handle_conflict write_fails fs = (fs1, Patched n) →
    (∀ p c, target fs !! p = Some c →
            target (revert write_fails fs1).1 !! p = Some c) ∧
    (∀ p, target fs !! p = None → is_Some (target fs1 !! p) →
          target (revert write_fails fs1).1 !! p = None).


(** ** Concrete runs *)

(** A stand-in for the digest, injective as SHA-256 is taken to be. *)
Definition digest_id (c : content) : digest := c.

Definition always (a : action) : path → conflict → action := λ _ _, a.
Definition writable : path → bool := λ _, false.
Definition read_only (p : path) : path → bool := λ q, bool_decide (q = p).

(** The environment of test_patcher.py: two files in the game, three in the
    patches. *)
Definition file1 : path := ["file1.txt"].
Definition file2 : path := ["file2.txt"].
Definition newfile : path := ["newfile.txt"].

Definition test_env : FS :=
  mkFS true
       {[ file1 := "original content 1"; file2 := "original content 2" ]}
       (Some [ (file1, "patched content 1"); (file2, "patched content 2");
               (newfile, "new file content") ])
       ∅ ∅ None false false.

(** After the first [apply]. *)
Definition test_env_patched : FS :=
  (apply digest_id (always abort) writable test_env).1.

(** The patches of file1 rewritten, as in the re-patching tests. *)
Definition test_env_v2 : FS :=
  set_patch_files
    (Some [ (file1, "patched content v2"); (file2, "patched content 2");
            (newfile, "new file content") ])
    test_env_patched.

(** After the first [apply], a patch source that holds file1 only. *)
Definition test_env_file1_only : FS :=
  set_patch_files (Some [ (file1, "patched content v2") ]) test_env_patched.

(** file1 edited by hand after the first [apply]. *)
Definition test_env_edited : FS :=
  set_target (<[file1 := "manually modified content"]> (target test_env_patched))
             test_env_patched.

(** file1 deleted after the first [apply]. *)
Definition test_env_deleted : FS :=
  set_target (delete file1 (target test_env_patched)) test_env_patched.

(** A patch in a subdirectory, with a target file to back up. *)
Definition sub_env : FS :=
  mkFS true {[ ["data"; "maps"; "m.bin"] := "map" ]}
       (Some [ (["data"; "maps"; "m.bin"], "map2") ])
       ∅ ∅ None false false.

Definition sub_env_patched : FS :=
  (apply digest_id (always abort) writable sub_env).1.



(** ** The conflict prompt and the interactive [apply] *)

Section Prompt.

(** [str.lower] and [str.strip] of the standard library. *)
Variable str_lower : string → string.
Variable str_strip : string → string.

Variable compute_checksum : content → digest.

(** The three tests on [choice] in the loop of [_handle_conflict]. *)
Definition parse_choice (choice : string) : option action :=
  if bool_decide (choice ∈ ["a"; "abort"]) then Some abort
  else if bool_decide (choice ∈ ["r"; "re-backup"; "rebackup"]) then Some re_backup
  else if bool_decide (choice ∈ ["f"; "force"]) then Some force
  else None.

(** A line that is none of the accepted choices. *)
Definition invalid_line (line : string) : Prop :=
  parse_choice (str_strip (str_lower line)) = None.

(** [_handle_conflict]: the lines still to be read from standard input are
    the state; [input] on no line raises [EOFError], the [None] of the
    result.  The prompt is repeated until a line is a valid choice. *)
Fixpoint handle_conflict (relative_path : path) (conflict_type : conflict)
    (stdin : list string) : option action * list string :=
  match stdin with
  | [] => (None, [])
  | line :: rest =>
      let choice := str_strip (str_lower line) in
      match parse_choice choice with
      | Some a => (Some a, rest)
      | None => handle_conflict relative_path conflict_type rest
      end
  end.

(** How the pre-flight loop ends when the answers come from standard
    input. *)
Inductive planning :=
  | Planned (operations : list Operation) (stdin : list string)
  | PlanAborted (stdin : list string)
  | PlanEOF.

Definition append_operation (op : Operation) (r : planning) : planning :=
  match r with
  | Planned operations stdin => Planned (op :: operations) stdin
  | _ => r
  end.

(** The pre-flight loop of [apply] with [_handle_conflict] reading its
    answers. *)
Fixpoint plan_stdin (stdin : list string) (fs : FS)
    (state : gmap path PatchedFile) (files : list (path * content))
    : planning :=
  match files with
  | [] => Planned [] stdin
  | (relative_path, patch_file) :: rest =>
      let needs_backup := bool_decide (is_Some (target fs !! relative_path)) in
      let conflict :=
        if needs_backup
        then check_conflicts compute_checksum relative_path fs state
        else None in
      match conflict with
      | Some k =>
          match handle_conflict relative_path k stdin with
          | (None, _) => PlanEOF
          | (Some abort, stdin1) => PlanAborted stdin1
          | (Some force, stdin1) =>
              append_operation
                (mkOperation patch_file relative_path false false)
                (plan_stdin stdin1 fs state rest)
          | (Some re_backup, stdin1) =>
              append_operation
                (mkOperation patch_file relative_path needs_backup true)
                (plan_stdin stdin1 fs state rest)
          end
      | None =>
          append_operation
            (mkOperation patch_file relative_path needs_backup false)
            (plan_stdin stdin fs state rest)
      end
  end.

(** [GamePatcher.apply] as [main] runs it, the operator at standard input.
    [None] is an exception that is no [PatcherError]: the [EOFError] of the
    prompt, which leaves [apply] from the pre-flight loop. *)
Definition apply_stdin (stdin : list string) (write_fails : path → bool)
    (fs0 : FS) : FS * option outcome :=
  let fs := open_lock fs0 in
  if lock_held fs then (fs, Some (Failed LockHeld))
  else if negb (target_exists fs) then (fs, Some (Failed TargetMissing))
  else
    let state := load_state fs in
    match patch_files fs with
    | None => (fs, Some (Failed PatchSourceMissing))
    | Some [] => (fs, Some NoPatchFiles)
    | Some files =>
        match plan_stdin stdin fs state files with
        | PlanEOF => (fs, None)
        | PlanAborted _ => (fs, Some Aborted)
        | Planned operations _ =>
            match execute compute_checksum write_fails state operations fs
                          state [] with
            | (fs1, new_state, patched_files, true) =>
                (save_state new_state fs1,
                 Some (Patched (length patched_files)))
            | (fs1, _, patched_files, false) =>
                (save_state state (rollback write_fails patched_files fs1),
                 Some (Failed PatchingFailed))
            end
        end
    end.

(** The exit status [main] gives: 1 for a [PatcherError] and for any other
    exception, 0 for a normal return. *)
Definition exit_status (r : option outcome) : nat :=
  match r with
  | Some o => exit_code o
  | None => 1
  end.

End Prompt.

(** ** The checksum of a file, read in chunks *)

Set Warnings "-abstract-large-number".

Section Checksum.

(** The hash object of [hashlib]: its states, [hashlib.sha256()], [update]
    and [hexdigest]. *)
Variable hash_state : Type.
Variable hash_new : hash_state.
Variable hash_update : hash_state → list Ascii.ascii → hash_state.
Variable hexdigest : hash_state → digest.

(** [f.read(8192)] on what is left of the file. *)
Definition read (size : nat) (rest : list Ascii.ascii) : list Ascii.ascii * list Ascii.ascii :=
  (take size rest, drop size rest).

(** The loop [for chunk in iter(lambda: f.read(8192), b"")]: it ends at the
    first empty chunk.  [fuel] bounds the number of reads. *)
Fixpoint update_chunks (fuel : nat) (h : hash_state) (rest : list Ascii.ascii)
    : option hash_state :=
  match fuel with
  | 0 => None
  | S fuel' =>
      let (chunk, rest') := read 8192 rest in
      if decide (chunk = []) then Some h
      else update_chunks fuel' (hash_update h chunk) rest'
  end.

(** [_compute_checksum] on a file with the given bytes. *)
Definition compute_checksum_chunked (file : list Ascii.ascii) : option digest :=
  hexdigest <$> update_chunks (S (length file)) hash_new file.

End Checksum.

(** ** Further notions used to state the properties *)

(** Every directory above a backup file exists. *)
Definition backup_tree_ok (fs : FS) : Prop :=
  ∀ f d, is_Some (backup fs !! f) → d ∈ parent_dirs f → d ∈ backup_dirs fs.



(** Stand-ins for [str.lower] and [str.strip], on ASCII text. *)
Definition ascii_lower_char (a : Ascii.ascii) : Ascii.ascii :=
  let n := Ascii.nat_of_ascii a in
  if bool_decide (65 ≤ n ≤ 90) then Ascii.ascii_of_nat (n + 32) else a.

Fixpoint ascii_lower (s : string) : string :=
  match s with
  | EmptyString => EmptyString
  | String a s' => String (ascii_lower_char a) (ascii_lower s')
  end.

Definition ascii_space (a : Ascii.ascii) : bool :=
  let n := Ascii.nat_of_ascii a in
  bool_decide (n = 32 ∨ 9 ≤ n ≤ 13 ∨ 28 ≤ n ≤ 31).

Fixpoint strip_left (s : string) : string :=
  match s with
  | EmptyString => EmptyString
  | String a s' => if ascii_space a then strip_left s' else s
  end.

Definition ascii_strip (s : string) : string :=
  String.rev (strip_left (String.rev (strip_left s))).

(** A stand-in for the hash object: the bytes fed so far. *)
Definition fed_bytes (h : list Ascii.ascii) (chunk : list Ascii.ascii) : list Ascii.ascii :=
  h ++ chunk.

(** ** Properties *)

Section Properties.

Context (compute_checksum : content → digest).

Implicit Types (h : path → conflict → action) (wf : path → bool).
Implicit Types (fs : FS) (st ns : gmap path PatchedFile).
Implicit Types (p q d : path) (c : content) (k : conflict).
Implicit Types (files : list (path * content)) (ops : list Operation).

Lemma load_state_lookup (fs : FS) (p : path) (e : PatchedFile) :
  load_state fs !! p = Some e → load_state fs ≠ ∅.
Proof. intros H Hempty. rewrite Hempty in H. by rewrite lookup_empty in H. Qed.

Instance key_le_total : Total key_le.
Proof.
  intros a b. unfold key_le.
  destruct (String.leb (path_str a.1) (path_str b.1)) eqn:E; [by left|right].
  unfold String.leb in *.
  rewrite String.compare_antisym.
  destruct (String.compare (path_str a.1) (path_str b.1)); simpl; done.
Qed.

(** C7: for every tracked entry, [status] prints exactly one line, and its
    label is MISSING iff the target file is absent, clean iff the file is
    present with the recorded patched checksum, and MODIFIED iff it is
    present with another checksum. *)
Theorem status_classifies (fs : FS) (p : path) (e : PatchedFile) :
  load_state fs !! p = Some e →
  ∃ lines counts s,
    status compute_checksum fs = Some (lines, counts) ∧
    (s, p) ∈ lines ∧
    (∀ s', (s', p) ∈ lines → s' = s) ∧
    (s = MISSING ↔ target fs !! p = None) ∧
    (s = clean ↔
       ∃ c, target fs !! p = Some c ∧ compute_checksum c = patched_checksum e) ∧
    (s = MODIFIED ↔
       ∃ c, target fs !! p = Some c ∧ compute_checksum c ≠ patched_checksum e).
Proof.
  intros Hp. unfold status.
  destruct (decide (load_state fs = ∅)) as [He|_].
  { by apply load_state_lookup in Hp. }
  eexists _, _, (classify compute_checksum fs p e). split; [reflexivity|].
  split; [|split].
  - apply list_elem_of_fmap. exists (p, e). split; [done|].
    rewrite merge_sort_Permutation. by apply elem_of_map_to_list.
  - intros s' Hs'. apply list_elem_of_fmap in Hs' as [[q e'] [Heq Hin]].
    simpl in Heq. injection Heq as -> <-.
    rewrite merge_sort_Permutation in Hin.
    apply elem_of_map_to_list in Hin. rewrite Hp in Hin. by injection Hin as <-.
  - unfold classify. destruct (target fs !! p) as [c|] eqn:Ht.
    + destruct (decide (compute_checksum c = patched_checksum e)) as [Hc|Hc].
      * repeat split; try done; try (intros; exists c; done).
        intros (c' & [= <-] & Hne). done.
      * repeat split; try done; try (intros; exists c; done).
        intros (c' & [= <-] & Hne). done.
    + repeat split; try done; intros (c' & ? & _); done.
Qed.

(** Opening the lock file touches no other field. *)
Lemma lock_held_open_lock fs : lock_held (open_lock fs) = lock_held fs.
Proof. done. Qed.
Lemma target_exists_open_lock fs : target_exists (open_lock fs) = target_exists fs.
Proof. done. Qed.
Lemma patch_files_open_lock fs : patch_files (open_lock fs) = patch_files fs.
Proof. done. Qed.
Lemma target_open_lock fs : target (open_lock fs) = target fs.
Proof. done. Qed.
Lemma backup_open_lock fs : backup (open_lock fs) = backup fs.
Proof. done. Qed.
Lemma backup_dirs_open_lock fs : backup_dirs (open_lock fs) = backup_dirs fs.
Proof. done. Qed.
Lemma state_file_open_lock fs : state_file (open_lock fs) = state_file fs.
Proof. done. Qed.
Lemma load_state_open_lock fs : load_state (open_lock fs) = load_state fs.
Proof. done. Qed.

Create Rewrite HintDb fsdb.
Hint Rewrite lock_held_open_lock target_exists_open_lock patch_files_open_lock
  target_open_lock backup_open_lock backup_dirs_open_lock state_file_open_lock
  load_state_open_lock : fsdb.

(** The lines of [status] come in the order of their keys. *)
Lemma status_sorted fs lines counts :
  status compute_checksum fs = Some (lines, counts) →
  Sorted (λ a b, String.leb (path_str a.2) (path_str b.2) = true) lines.
Proof.
  unfold status. destruct (decide (load_state fs = ∅)); [done|].
  intros [= <- _]. apply Sorted_fmap with (R1 := key_le); [done|].
  apply (Sorted_merge_sort _).
Qed.

(** A held lock ends either command at once, with the error of the lock and
    nothing but the lock file touched. *)
Lemma apply_lock_held h wf fs :
  lock_held fs = true →
  apply compute_checksum h wf fs = (open_lock fs, Failed LockHeld).
Proof. intros Hl. unfold apply. autorewrite with fsdb. by rewrite Hl. Qed.

Lemma revert_lock_held wf fs :
  lock_held fs = true → revert wf fs = (open_lock fs, Failed LockHeld).
Proof. intros Hl. unfold revert. autorewrite with fsdb. by rewrite Hl. Qed.

(** *** The planning pass *)

Lemma plan_abort h (fs : FS) (st : gmap path PatchedFile)
    (files : list (path * content)) (p : path) (c : content) (k : conflict) :
  (p, c) ∈ files →
  check_conflicts compute_checksum p fs st = Some k →
  h p k = abort →
  plan compute_checksum h fs st files = None.
Proof.
  intros Hin Hc Ha. induction files as [|[q d] rest IH]; [by apply elem_of_nil in Hin|].
  apply elem_of_cons in Hin as [[= <- <-]|Hin].
  - simpl. assert (is_Some (target fs !! p)) as Hs.
    { unfold check_conflicts in Hc. destruct (target fs !! p); [by eexists|done]. }
    rewrite bool_decide_eq_true_2 by done. rewrite Hc, Ha. done.
  - simpl. rewrite (IH Hin).
    destruct (if bool_decide _ then _ else _) as [k'|]; [|done].
    by destruct (h q k').
Qed.

Lemma plan_planned h fs st files ops :
  plan compute_checksum h fs st files = Some ops →
  Forall2 (planned compute_checksum h fs st) files ops.
Proof.
  revert ops. induction files as [|[p c] rest IH]; intros ops Hp; simpl in Hp.
  { injection Hp as <-. constructor. }
  assert (check_conflicts compute_checksum p fs st =
          if bool_decide (is_Some (target fs !! p))
          then check_conflicts compute_checksum p fs st else None) as Hcc.
  { unfold check_conflicts. destruct (target fs !! p) eqn:E; [|done].
    by rewrite bool_decide_eq_true_2. }
  rewrite <- Hcc in Hp.
  destruct (check_conflicts compute_checksum p fs st) as [k|] eqn:Hc.
  - assert (is_Some (target fs !! p)) as Hs.
    { unfold check_conflicts in Hc. destruct (target fs !! p); [by eexists|done]. }
    destruct (h p k) eqn:Hh; [done| |];
      destruct (plan compute_checksum h fs st rest) as [ops'|]; simpl in Hp; try done;
      injection Hp as <-; constructor; auto;
      unfold planned; simpl; rewrite Hc, Hh.
    + rewrite bool_decide_eq_true_2 by done. naive_solver.
    + naive_solver.
  - destruct (plan compute_checksum h fs st rest) as [ops'|]; simpl in Hp; [|done].
    injection Hp as <-. constructor; auto.
    unfold planned; simpl. by rewrite Hc.
Qed.

Lemma planned_paths h fs st files ops :
  Forall2 (planned compute_checksum h fs st) files ops →
  op_relative_path <$> ops = files.*1.
Proof.
  induction 1 as [|f op fl ol [Hp _] _ IH]; [done|].
  rewrite !fmap_cons. by rewrite Hp, IH.
Qed.

(** *** The execution pass *)

Lemma backup_file_spec p fs fs1 r :
  backup_file p fs = (fs1, r) →
  target fs1 = target fs ∧ state_file fs1 = state_file fs ∧
  target_exists fs1 = target_exists fs ∧ patch_files fs1 = patch_files fs ∧
  lock_file fs1 = lock_file fs ∧ lock_held fs1 = lock_held fs ∧
  backup_dirs fs1 = backup_dirs fs ∪ parent_dirs p ∧
  match r with
  | Some _ => ∃ c, target fs !! p = Some c ∧ backup fs1 = <[p := c]> (backup fs)
  | None => target fs !! p = None ∧ backup fs1 = backup fs
  end.
Proof.
  unfold backup_file. destruct (target fs !! p) as [c|] eqn:E;
    intros [= <- <-]; simpl; repeat split; eauto.
Qed.

(** One operation that goes through: the patch is on the target, and the
    backup is the old target file when a fresh backup was due. *)
Lemma execute_op_Some wf st op fs fs1 e :
  execute_op compute_checksum wf st op fs = (fs1, Some e) →
  let p := op_relative_path op in
  wf p = false ∧
  target fs1 = <[p := op_patch_file op]> (target fs) ∧
  state_file fs1 = state_file fs ∧
  target_exists fs1 = target_exists fs ∧ patch_files fs1 = patch_files fs ∧
  lock_file fs1 = lock_file fs ∧ lock_held fs1 = lock_held fs ∧
  relative_path e = p ∧ patched_checksum e = compute_checksum (op_patch_file op) ∧
  has_backup e = op_needs_backup op ∧
  if fresh_backup st op
  then ∃ c, target fs !! p = Some c ∧ backup fs1 = <[p := c]> (backup fs) ∧
            backup_dirs fs1 = backup_dirs fs ∪ parent_dirs p ∧
            original_checksum e = Some (compute_checksum c)
  else backup fs1 = backup fs ∧ backup_dirs fs1 = backup_dirs fs ∧
       original_checksum e =
         if op_needs_backup op then st !! p ≫= original_checksum else None.
Proof.
  unfold execute_op, fresh_backup. intros H.
  set (p := op_relative_path op) in *.
  destruct (op_needs_backup op) eqn:Hnb; simpl in *.
  - destruct (bool_decide (st !! p = None) || negb (from_option has_backup false (st !! p))
              || op_force_rebackup op) eqn:Hf.
    + destruct (backup_file p fs) as [fs0 [[]|]] eqn:Hb; [|done].
      apply backup_file_spec in Hb as (Ht & Hs & Hte & Hpf & Hlf & Hlh & Hd & c & Hc & Hbk).
      destruct (wf p); [done|]. injection H as <- <-. simpl.
      rewrite Ht, Hc. repeat split; eauto.
    + destruct (wf p); [done|]. injection H as <- <-. simpl. repeat split; eauto.
  - destruct (wf p); [done|]. injection H as <- <-. simpl. repeat split; eauto.
Qed.

(** One operation that raises: the target is as before, and the backups can
    only have gained the copy of this operation. *)
Lemma execute_op_None wf st op fs fs1 :
  execute_op compute_checksum wf st op fs = (fs1, None) →
  let p := op_relative_path op in
  target fs1 = target fs ∧ state_file fs1 = state_file fs ∧
  target_exists fs1 = target_exists fs ∧ patch_files fs1 = patch_files fs ∧
  lock_file fs1 = lock_file fs ∧ lock_held fs1 = lock_held fs ∧
  (backup fs1 = backup fs ∨
   ∃ c, target fs !! p = Some c ∧ backup fs1 = <[p := c]> (backup fs)).
Proof.
  unfold execute_op. intros H.
  set (p := op_relative_path op) in *.
  destruct (op_needs_backup op) eqn:Hnb; simpl in *.
  - destruct (bool_decide (st !! p = None) || negb (from_option has_backup false (st !! p))
              || op_force_rebackup op) eqn:Hf.
    + destruct (backup_file p fs) as [fs0 [[]|]] eqn:Hb.
      * apply backup_file_spec in Hb as (Ht & Hs & Hte & Hpf & Hlf & Hlh & Hd & c & Hc & Hbk).
        destruct (wf p); [|done]. injection H as <-. repeat split; eauto.
      * apply backup_file_spec in Hb as (Ht & Hs & Hte & Hpf & Hlf & Hlh & Hd & Hc & Hbk).
        injection H as <-. repeat split; eauto.
    + destruct (wf p); [|done]. injection H as <-. repeat split; eauto.
  - destruct (wf p); [|done]. injection H as <-. repeat split; eauto.
Qed.

Lemma execute_op_entry wf st op fs fs1 e :
  execute_op compute_checksum wf st op fs = (fs1, Some e) →
  e = entry_of compute_checksum st op (target fs !! op_relative_path op).
Proof.
  intros H. apply execute_op_Some in H
    as (_ & _ & _ & _ & _ & _ & _ & Hr & Hp & Hb & Hf).
  destruct e as [r o pc hb]. simpl in *. subst r pc hb. unfold entry_of.
  destruct (fresh_backup st op).
  - destruct Hf as (c & -> & _ & _ & ->). done.
  - destruct Hf as (_ & _ & ->). done.
Qed.

(** The loop leaves every field alone but the target files, the backups and
    the backup directories. *)
Lemma execute_fields wf st ops fs ns pf fs' ns' pf' b :
  execute compute_checksum wf st ops fs ns pf = (fs', ns', pf', b) →
  state_file fs' = state_file fs ∧ target_exists fs' = target_exists fs ∧
  patch_files fs' = patch_files fs ∧ lock_file fs' = lock_file fs ∧
  lock_held fs' = lock_held fs.
Proof.
  revert fs ns pf. induction ops as [|op rest IH]; intros fs ns pf H; simpl in H.
  { by injection H as <- <- <- <-. }
  destruct (execute_op compute_checksum wf st op fs) as [fs1 [e|]] eqn:Hop.
  - apply execute_op_Some in Hop as (_ & _ & Hs & Hte & Hpf & Hlf & Hlh & _).
    apply IH in H as (-> & -> & -> & -> & ->). done.
  - injection H as <- <- <- <-.
    apply execute_op_None in Hop as (_ & Hs & Hte & Hpf & Hlf & Hlh & _). done.
Qed.

(** The loop that runs to its end, over operations on distinct paths: every
    operation found the target file and the backup of its path as they were
    before the loop, wrote the patch, and recorded its entry; nothing else
    moved. *)
Lemma execute_success wf st ops fs ns pf fs' ns' pf' :
  NoDup (op_relative_path <$> ops) →
  execute compute_checksum wf st ops fs ns pf = (fs', ns', pf', true) →
  pf' = pf ++ (op_relative_path <$> ops) ∧
  (∀ op, op ∈ ops →
     let p := op_relative_path op in
     wf p = false ∧
     target fs' !! p = Some (op_patch_file op) ∧
     ns' !! p = Some (entry_of compute_checksum st op (target fs !! p)) ∧
     backup fs' !! p =
       (if fresh_backup st op then target fs !! p else backup fs !! p) ∧
     (fresh_backup st op = true → is_Some (target fs !! p))) ∧
  (∀ q, q ∉ op_relative_path <$> ops →
     target fs' !! q = target fs !! q ∧ backup fs' !! q = backup fs !! q ∧
     ns' !! q = ns !! q).
Proof.
  revert fs ns pf. induction ops as [|op rest IH]; intros fs ns pf Hnd H; simpl in H.
  { injection H as <- <- <-. rewrite app_nil_r. split; [done|].
    split; [|done]. intros op Hin. by apply elem_of_nil in Hin. }
  rewrite fmap_cons in Hnd. apply NoDup_cons in Hnd as [Hnotin Hnd].
  destruct (execute_op compute_checksum wf st op fs) as [fs1 [e|]] eqn:Hop; [|done].
  pose proof (execute_op_entry _ _ _ _ _ _ Hop) as He.
  apply execute_op_Some in Hop
    as (Hwf & Ht & _ & _ & _ & _ & _ & _ & _ & _ & Hf).
  apply IH in H as (Hpf & Hops & Hframe); [|done].
  assert (∀ q, q ≠ op_relative_path op →
            target fs1 !! q = target fs !! q ∧ backup fs1 !! q = backup fs !! q)
    as Hstep.
  { intros q Hq. rewrite Ht, lookup_insert_ne by done. split; [done|].
    destruct (fresh_backup st op).
    - destruct Hf as (c & _ & -> & _). by rewrite lookup_insert_ne.
    - by destruct Hf as (-> & _). }
  split; [|split].
  - rewrite Hpf, fmap_cons, <- app_assoc. done.
  - intros op' Hin. apply elem_of_cons in Hin as [->|Hin].
    + destruct (Hframe _ Hnotin) as (Ht' & Hb' & Hn').
      simpl. rewrite Ht', Hb', Hn', Ht, !lookup_insert_eq, <- He.
      repeat split; try done.
      * destruct (fresh_backup st op).
        -- destruct Hf as (c & Hc & -> & _). by rewrite lookup_insert_eq.
        -- by destruct Hf as (-> & _).
      * intros Hfr. rewrite Hfr in Hf. destruct Hf as (c & Hc & _). by eexists.
    + assert (op_relative_path op' ≠ op_relative_path op) as Hne.
      { intros Heq. apply Hnotin. rewrite <- Heq. by apply list_elem_of_fmap_2. }
      destruct (Hops _ Hin) as (H1 & H2 & H3 & H4 & H5).
      destruct (Hstep _ Hne) as [Hs1 Hs2]. simpl in *.
      rewrite Hs1, Hs2 in *. done.
  - intros q Hq. rewrite fmap_cons in Hq. apply not_elem_of_cons in Hq as [Hq1 Hq2].
    destruct (Hframe _ Hq2) as (-> & -> & ->).
    destruct (Hstep _ Hq1) as [-> ->]. by rewrite lookup_insert_ne.
Qed.

(** *** [apply] that succeeds *)

Lemma apply_Patched_inv h wf fs fs' n :
  apply compute_checksum h wf fs = (fs', Patched n) →
  ∃ files ops fs1 ns pf,
    lock_held fs = false ∧ target_exists fs = true ∧
    patch_files fs = Some files ∧ files ≠ [] ∧
    plan compute_checksum h (open_lock fs) (load_state fs) files = Some ops ∧
    execute compute_checksum wf (load_state fs) ops (open_lock fs) (load_state fs) []
      = (fs1, ns, pf, true) ∧
    fs' = save_state ns fs1 ∧ n = length pf.
Proof.
  unfold apply. autorewrite with fsdb.
  destruct (lock_held fs); [intros [= _ ?]; done|].
  destruct (target_exists fs); simpl; [|intros [= _ ?]; done].
  destruct (patch_files fs) as [[|f files]|]; try (intros [= _ ?]; done).
  destruct (plan _ _ _ _ _) as [ops|] eqn:Hplan; [|intros [= _ ?]; done].
  destruct (execute _ _ _ _ _ _ _) as [[[fs1 ns] pf] []] eqn:Hex;
    [|intros [= _ ?]; done].
  intros [= <- <-]. exists (f :: files), ops, fs1, ns, pf. done.
Qed.

(** What a successful [apply] did, for a patch source without repeated
    paths: one operation per patch file, planned against the state and the
    target of before the call and carried out on them. *)
Lemma apply_Patched_spec h wf fs fs' n files :
  apply compute_checksum h wf fs = (fs', Patched n) →
  patch_files fs = Some files →
  NoDup files.*1 →
  ∃ ops ns,
    Forall2 (planned compute_checksum h fs (load_state fs)) files ops ∧
    state_file fs' = Some ns ∧ n = length files ∧ files ≠ [] ∧
    lock_held fs' = false ∧ patch_files fs' = Some files ∧
    (∀ op, op ∈ ops →
       let p := op_relative_path op in
       wf p = false ∧
       target fs' !! p = Some (op_patch_file op) ∧
       ns !! p = Some (entry_of compute_checksum (load_state fs) op (target fs !! p)) ∧
       backup fs' !! p =
         (if fresh_backup (load_state fs) op then target fs !! p
          else backup fs !! p) ∧
       (fresh_backup (load_state fs) op = true → is_Some (target fs !! p))) ∧
    (∀ q, q ∉ files.*1 →
       target fs' !! q = target fs !! q ∧ backup fs' !! q = backup fs !! q ∧
       ns !! q = load_state fs !! q).
Proof.
  intros Ha Hpf Hnd.
  apply apply_Patched_inv in Ha
    as (files' & ops & fs1 & ns & pf & Hl & Ht & Hpf' & Hne & Hplan & Hex & -> & ->).
  rewrite Hpf in Hpf'. injection Hpf' as <-.
  apply plan_planned in Hplan. pose proof (planned_paths _ _ _ _ _ Hplan) as Hpaths.
  pose proof (execute_fields _ _ _ _ _ _ _ _ _ _ Hex) as (_ & _ & Hpf1 & _ & Hlh).
  apply execute_success in Hex as (Hpfs & Hops & Hframe);
    [|by rewrite Hpaths].
  exists ops, ns. split; [exact Hplan|]. split; [done|].
  split. { rewrite Hpfs. simpl. by rewrite Hpaths, !length_fmap. }
  split; [done|]. split; [by rewrite <- Hl|]. split; [by rewrite <- Hpf|].
  split.
  - intros op Hin. apply (Hops op Hin).
  - intros q Hq. apply Hframe. by rewrite Hpaths.
Qed.

Lemma planned_lookup h fs st files ops p c :
  Forall2 (planned compute_checksum h fs st) files ops →
  (p, c) ∈ files →
  ∃ op, op ∈ ops ∧ planned compute_checksum h fs st (p, c) op.
Proof.
  intros HF Hin. apply list_elem_of_lookup in Hin as [i Hi].
  destruct (Forall2_lookup_l _ _ _ _ _ HF Hi) as (op & Hop & Hpl).
  exists op. split; [|done]. by eapply list_elem_of_lookup_2.
Qed.

(** The planning pass asks the operator only about candidates in conflict. *)
Lemma plan_ext h h' fs st files :
  (∀ p c k, (p, c) ∈ files → check_conflicts compute_checksum p fs st = Some k →
            h' p k = h p k) →
  plan compute_checksum h' fs st files = plan compute_checksum h fs st files.
Proof.
  induction files as [|[p c] rest IH]; intros Hh; [done|]. simpl.
  rewrite IH by (intros; eapply Hh; [apply elem_of_cons; by right|done]).
  destruct (bool_decide (is_Some (target fs !! p))); [|done].
  destruct (check_conflicts compute_checksum p fs st) as [k|] eqn:Hc; [|done].
  rewrite (Hh p c k); [done| |done]. apply elem_of_cons. by left.
Qed.

(** C10: when a patch file's path is tracked in the state and its target
    file is absent, a successful [apply] never asks the operator about that
    path (its result does not depend on the answer for it), writes the patch
    onto the target, and records an entry without original checksum and
    without backup; the backup file of that path, if any, is left as it
    was. *)
Theorem apply_tracked_missing h wf fs fs' n files p c (e : PatchedFile) :
  apply compute_checksum h wf fs = (fs', Patched n) →
  patch_files fs = Some files →
  NoDup files.*1 →
  (p, c) ∈ files →
  load_state fs !! p = Some e →
  target fs !! p = None →
  check_conflicts compute_checksum p fs (load_state fs) = None ∧
  (∀ h', (∀ q k, q ≠ p → h' q k = h q k) →
         apply compute_checksum h' wf fs = apply compute_checksum h wf fs) ∧
  target fs' !! p = Some c ∧
  load_state fs' !! p = Some (mkPatchedFile p None (compute_checksum c) false) ∧
  backup fs' !! p = backup fs !! p.
Proof.
  intros Ha Hpf Hnd Hin He Ht.
  assert (check_conflicts compute_checksum p fs (load_state fs) = None) as Hcc.
  { unfold check_conflicts. by rewrite Ht. }
  split; [done|]. split.
  - intros h' Hh'. unfold apply. autorewrite with fsdb.
    destruct (lock_held fs); [done|]. destruct (negb (target_exists fs)); [done|].
    rewrite Hpf. destruct files as [|f rest]; [done|].
    rewrite (plan_ext h h'); [done|].
    intros q c' k _ Hc. destruct (decide (q = p)) as [->|Hne]; [|by apply Hh'].
    change (check_conflicts compute_checksum p fs (load_state fs) = Some k) in Hc.
    by rewrite Hcc in Hc.
  - destruct (apply_Patched_spec _ _ _ _ _ _ Ha Hpf Hnd)
      as (ops & ns & Hplan & Hsf & _ & _ & _ & _ & Hops & _).
    destruct (planned_lookup _ _ _ _ _ _ _ Hplan Hin) as (op & Hop & Hp1 & Hp2 & Hp3).
    simpl in *. rewrite Hcc, Ht in Hp3. destruct Hp3 as [Hnb Hfr].
    rewrite bool_decide_eq_false_2 in Hnb by (by intros [? ?]).
    destruct (Hops op Hop) as (_ & Htg & Hns & Hbk & _).
    rewrite Hp1 in *. rewrite Hp2 in *.
    assert (fresh_backup (load_state fs) op = false) as Hfresh.
    { unfold fresh_backup. by rewrite Hnb. }
    rewrite Hfresh in Hbk.
    split; [done|]. split; [|done].
    unfold load_state at 1. rewrite Hsf. simpl. rewrite Hns.
    unfold entry_of. by rewrite Hfresh, Hnb, Hp1, Hp2.
Qed.


(** *** Restoring files *)

(** One restore of [revert]: what it leaves at its own path, and that it
    touches nothing else. *)
Lemma restore_file_spec wf p (del : bool) fs :
  let fs' := default fs (restore_file wf p del fs) in
  state_file fs' = state_file fs ∧ backup_dirs fs' = backup_dirs fs ∧
  target_exists fs' = target_exists fs ∧ patch_files fs' = patch_files fs ∧
  lock_file fs' = lock_file fs ∧ lock_held fs' = lock_held fs ∧
  (∀ q, q ≠ p →
     target fs' !! q = target fs !! q ∧ backup fs' !! q = backup fs !! q) ∧
  match backup fs !! p with
  | Some c =>
      if wf p then target fs' !! p = target fs !! p ∧ backup fs' !! p = Some c
      else target fs' !! p = Some c ∧
           backup fs' !! p = (if del then None else Some c)
  | None => target fs' !! p = None ∧ backup fs' !! p = None
  end.
Proof.
  unfold restore_file. destruct (backup fs !! p) as [c|] eqn:Hb.
  - destruct (wf p); simpl; [by rewrite Hb|].
    destruct del; simpl; repeat split; try done;
      try (by rewrite lookup_insert_ne);
      try (by rewrite lookup_delete_ne);
      try (by rewrite lookup_insert_eq);
      try (by rewrite lookup_delete_eq).
  - simpl. repeat split; try done;
      try (by rewrite lookup_delete_ne); try (by rewrite lookup_delete_eq).
Qed.

(** The loop of [revert] over distinct paths: each path is restored from the
    file system of before the loop. *)
Lemma restore_all_spec wf (ps : list path) fs :
  NoDup ps →
  let fs' := restore_all wf ps fs in
  state_file fs' = state_file fs ∧ backup_dirs fs' = backup_dirs fs ∧
  target_exists fs' = target_exists fs ∧ patch_files fs' = patch_files fs ∧
  lock_file fs' = lock_file fs ∧ lock_held fs' = lock_held fs ∧
  (∀ q, q ∉ ps →
     target fs' !! q = target fs !! q ∧ backup fs' !! q = backup fs !! q) ∧
  (∀ p, p ∈ ps →
     match backup fs !! p with
     | Some c =>
         if wf p then target fs' !! p = target fs !! p ∧ backup fs' !! p = Some c
         else target fs' !! p = Some c ∧ backup fs' !! p = None
     | None => target fs' !! p = None ∧ backup fs' !! p = None
     end).
Proof.
  revert fs. induction ps as [|a ps IH]; intros fs Hnd; simpl.
  { do 6 (split; [done|]). split; [done|].
    intros p Hp. by apply elem_of_nil in Hp. }
  apply NoDup_cons in Hnd as [Ha Hnd].
  pose proof (restore_file_spec wf a true fs) as Hstep. simpl in Hstep.
  set (fs1 := default fs (restore_file wf a true fs)) in *.
  destruct Hstep as (Hs & Hd & Hte & Hpf & Hlf & Hlh & Hframe & Hat).
  specialize (IH fs1 Hnd). simpl in IH.
  change (foldl _ fs1 ps) with (restore_all wf ps fs1).
  destruct IH as (Hs' & Hd' & Hte' & Hpf' & Hlf' & Hlh' & Hframe' & Hat').
  rewrite Hs', Hd', Hte', Hpf', Hlf', Hlh'.
  do 6 (split; [done|]). split.
  - intros q Hq. apply not_elem_of_cons in Hq as [Hq1 Hq2].
    destruct (Hframe' q Hq2) as [-> ->]. by destruct (Hframe q Hq1) as [-> ->].
  - intros p Hp. apply elem_of_cons in Hp as [->|Hp].
    + destruct (Hframe' a Ha) as [-> ->]. exact Hat.
    + assert (p ≠ a) as Hne by (intros ->; done).
      destruct (Hframe p Hne) as [Ht Hb]. specialize (Hat' p Hp).
      by rewrite Ht, Hb in Hat'.
Qed.

Lemma FS_eq fs fs' :
  target_exists fs = target_exists fs' → target fs = target fs' →
  patch_files fs = patch_files fs' → backup fs = backup fs' →
  backup_dirs fs = backup_dirs fs' → state_file fs = state_file fs' →
  lock_file fs = lock_file fs' → lock_held fs = lock_held fs' →
  fs = fs'.
Proof. destruct fs, fs'. simpl. by intros -> -> -> -> -> -> -> ->. Qed.

(** The entries are restored independently of each other: the order in which
    the dictionary yields them does not matter. *)
Lemma restore_all_perm wf (ps ps' : list path) fs :
  ps ≡ₚ ps' → NoDup ps →
  restore_all wf ps fs = restore_all wf ps' fs.
Proof.
  intros Hperm Hnd.
  assert (NoDup ps') as Hnd' by (by rewrite <- Hperm).
  destruct (restore_all_spec wf ps fs Hnd)
    as (Hs & Hd & Hte & Hpf & Hlf & Hlh & Hout & Hin).
  destruct (restore_all_spec wf ps' fs Hnd')
    as (Hs' & Hd' & Hte' & Hpf' & Hlf' & Hlh' & Hout' & Hin').
  assert (∀ p, target (restore_all wf ps fs) !! p
               = target (restore_all wf ps' fs) !! p
             ∧ backup (restore_all wf ps fs) !! p
               = backup (restore_all wf ps' fs) !! p) as Hpt.
  { intros p. destruct (decide (p ∈ ps)) as [Hp|Hp].
    - assert (p ∈ ps') as Hp' by (by rewrite <- Hperm).
      specialize (Hin p Hp). specialize (Hin' p Hp').
      destruct (backup fs !! p); [destruct (wf p)|];
        destruct Hin as [-> ->]; destruct Hin' as [-> ->]; done.
    - assert (p ∉ ps') as Hp' by (by rewrite <- Hperm).
      destruct (Hout p Hp) as [-> ->]. destruct (Hout' p Hp') as [-> ->]. done. }
  apply FS_eq; try congruence.
  - apply map_eq. intros p. apply Hpt.
  - apply map_eq. intros p. apply Hpt.
Qed.

(** The rollback of [apply] keeps every backup. *)
Lemma rollback_spec wf (ps : list path) fs :
  let fs' := rollback wf ps fs in
  state_file fs' = state_file fs ∧ backup_dirs fs' = backup_dirs fs ∧
  target_exists fs' = target_exists fs ∧ patch_files fs' = patch_files fs ∧
  lock_file fs' = lock_file fs ∧ lock_held fs' = lock_held fs ∧
  backup fs' = backup fs.
Proof.
  revert fs. induction ps as [|a ps IH]; intros fs; simpl; [done|].
  pose proof (restore_file_spec wf a false fs) as Hstep. simpl in Hstep.
  set (fs1 := default fs (restore_file wf a false fs)) in *.
  destruct Hstep as (Hs & Hd & Hte & Hpf & Hlf & Hlh & Hframe & Hat).
  specialize (IH fs1). simpl in IH. change (foldl _ fs1 ps) with (rollback wf ps fs1).
  destruct IH as (-> & -> & -> & -> & -> & -> & ->).
  repeat split; try done.
  apply map_eq. intros q. destruct (decide (q = a)) as [->|Hne].
  - destruct (backup fs !! a) as [c|] eqn:Hb.
    + destruct (wf a); by destruct Hat as [_ ->].
    + by destruct Hat as [_ ->].
  - by destruct (Hframe q Hne) as [_ ->].
Qed.

(** *** Pruning the backup tree *)

Lemma is_parent_length d (k : path) :
  is_parent d k = true → length k = S (length d).
Proof.
  unfold is_parent. intros H. apply bool_decide_eq_true in H as [Hne <-].
  rewrite (app_removelast_last "" Hne) at 1.
  rewrite length_app. simpl. lia.
Qed.

Lemma dir_empty_false d fs : dir_empty d fs = false ↔ has_child d fs.
Proof.
  unfold dir_empty, has_child. rewrite bool_decide_eq_false. split.
  - intros H. apply not_set_Forall_Exists in H; [|apply _].
    destruct H as (x & Hx & Hp). exists x. split; [done|].
    simpl in Hp. destruct (is_parent d x); [done|]. exfalso. apply Hp. by intros [].
  - intros (x & Hx & Hp) HF. apply (HF x Hx). by rewrite Hp.
Qed.

Lemma rmdir_if_empty_spec fs d :
  let fs' := rmdir_if_empty fs d in
  backup fs' = backup fs ∧ target fs' = target fs ∧
  state_file fs' = state_file fs ∧ target_exists fs' = target_exists fs ∧
  patch_files fs' = patch_files fs ∧ lock_file fs' = lock_file fs ∧
  lock_held fs' = lock_held fs ∧
  (∀ q, q ≠ d → (q ∈ backup_dirs fs' ↔ q ∈ backup_dirs fs)) ∧
  (d ∈ backup_dirs fs' ↔ d ∈ backup_dirs fs ∧ has_child d fs).
Proof.
  unfold rmdir_if_empty.
  destruct (bool_decide (d ∈ backup_dirs fs)) eqn:Hin;
    [apply bool_decide_eq_true in Hin|apply bool_decide_eq_false in Hin]; simpl.
  - destruct (dir_empty d fs) eqn:He; simpl.
    + do 7 (split; [done|]). split.
      * intros q Hq. rewrite elem_of_difference, elem_of_singleton. tauto.
      * rewrite elem_of_difference, elem_of_singleton. split; [tauto|].
        intros [_ Hc]. apply dir_empty_false in Hc. congruence.
    + apply dir_empty_false in He. do 7 (split; [done|]). split; [done|tauto].
  - do 7 (split; [done|]). split; [done|tauto].
Qed.

(** The clean-up loop over a list that has deeper paths first: a directory of
    the list is left exactly when it still has an entry below it. *)
Lemma prune_fold_spec (l : list path) fs :
  StronglySorted deeper_first l →
  NoDup l →
  let fs' := foldl rmdir_if_empty fs l in
  backup fs' = backup fs ∧ target fs' = target fs ∧
  state_file fs' = state_file fs ∧ target_exists fs' = target_exists fs ∧
  patch_files fs' = patch_files fs ∧ lock_file fs' = lock_file fs ∧
  lock_held fs' = lock_held fs ∧
  (∀ d, d ∉ l → (d ∈ backup_dirs fs' ↔ d ∈ backup_dirs fs)) ∧
  (∀ d, d ∈ l → (d ∈ backup_dirs fs' ↔ d ∈ backup_dirs fs ∧ has_child d fs')).
Proof.
  revert fs. induction l as [|a l IH]; intros fs Hsort Hnd; simpl.
  { do 7 (split; [done|]). split; [done|].
    intros d Hd. by apply elem_of_nil in Hd. }
  apply StronglySorted_inv in Hsort as [Hsort Hall].
  apply NoDup_cons in Hnd as [Ha Hnd].
  destruct (rmdir_if_empty_spec fs a)
    as (Hb & Ht & Hs & Hte & Hpf & Hlf & Hlh & Hother & Hself).
  set (fs1 := rmdir_if_empty fs a) in *.
  destruct (IH fs1 Hsort Hnd)
    as (Hb' & Ht' & Hs' & Hte' & Hpf' & Hlf' & Hlh' & Hout & Hin).
  set (fs' := foldl rmdir_if_empty fs1 l) in *.
  rewrite Hb', Ht', Hs', Hte', Hpf', Hlf', Hlh'.
  do 7 (split; [done|]). split.
  - intros d Hd. apply not_elem_of_cons in Hd as [Hd1 Hd2].
    rewrite (Hout d Hd2). by apply Hother.
  - intros d Hd. apply elem_of_cons in Hd as [->|Hd].
    + rewrite (Hout a Ha), Hself.
      assert (has_child a fs ↔ has_child a fs') as Hch; [|by rewrite Hch].
      assert (∀ x : path, is_parent a x = true →
                (x ∈ backup_dirs fs' ↔ x ∈ backup_dirs fs)) as Hx.
      { intros x Hp. apply is_parent_length in Hp.
        assert (x ≠ a) as Hne by (intros ->; lia).
        assert (x ∉ l) as Hnl.
        { intros Hxl. rewrite Forall_forall in Hall.
          specialize (Hall x Hxl). unfold deeper_first in Hall. lia. }
        rewrite (Hout x Hnl). by apply Hother. }
      unfold has_child. rewrite Hb', Hb.
      split; intros (x & Hxin & Hp); exists x; (split; [|done]);
        apply elem_of_union in Hxin as [Hxin|Hxin];
        apply elem_of_union; auto; right; by apply (Hx x Hp).
    + assert (d ≠ a) as Hne by (intros ->; done).
      rewrite (Hin d Hd). by rewrite (Hother d Hne).
Qed.

Instance deeper_first_trans : Transitive deeper_first.
Proof. unfold deeper_first. intros a b c ??. lia. Qed.

Instance deeper_first_total : Total deeper_first.
Proof. unfold deeper_first. intros a b. lia. Qed.

(** [prune] removes the directories of the backup root that are, or become,
    empty, and only those: afterwards a directory exists iff it existed and
    still has an entry right below it. *)
Lemma prune_spec fs :
  let fs' := prune fs in
  backup fs' = backup fs ∧ target fs' = target fs ∧
  state_file fs' = state_file fs ∧ target_exists fs' = target_exists fs ∧
  patch_files fs' = patch_files fs ∧ lock_file fs' = lock_file fs ∧
  lock_held fs' = lock_held fs ∧
  (∀ d, d ∈ backup_dirs fs' ↔ d ∈ backup_dirs fs ∧ has_child d fs').
Proof.
  unfold prune, rglob_sorted.
  set (l := merge_sort deeper_first (elements (dom (backup fs) ∪ backup_dirs fs))).
  assert (StronglySorted deeper_first l) as Hsort
    by apply (StronglySorted_merge_sort _).
  assert (l ≡ₚ elements (dom (backup fs) ∪ backup_dirs fs)) as Hperm
    by apply merge_sort_Permutation.
  assert (NoDup l) as Hnd by (rewrite Hperm; apply NoDup_elements).
  destruct (prune_fold_spec l fs Hsort Hnd)
    as (Hb & Ht & Hs & Hte & Hpf & Hlf & Hlh & Hout & Hin).
  do 7 (split; [done|]).
  intros d. destruct (decide (d ∈ l)) as [Hd|Hd]; [by apply Hin|].
  rewrite (Hout d Hd). split; [|tauto].
  intros Hdd. exfalso. apply Hd. rewrite Hperm. apply elem_of_elements.
  apply elem_of_union. by right.
Qed.

(** *** [revert] *)

Lemma revert_unfold wf fs :
  lock_held fs = false →
  load_state fs ≠ ∅ →
  revert wf fs =
    (prune (set_state_file None
              (restore_all wf (map_to_list (load_state fs)).*1 (open_lock fs))),
     Reverted (size (load_state fs))).
Proof.
  intros Hl Hne. unfold revert. autorewrite with fsdb. rewrite Hl.
  by destruct (decide (load_state fs = ∅)).
Qed.

(** What [revert] does on a state with entries, path by path, and to the
    backup tree. *)
Lemma revert_entries wf fs :
  lock_held fs = false →
  load_state fs ≠ ∅ →
  let fs' := (revert wf fs).1 in
  (revert wf fs).2 = Reverted (size (load_state fs)) ∧
  (∀ p, is_Some (load_state fs !! p) →
     match backup fs !! p with
     | Some c =>
         if wf p then target fs' !! p = target fs !! p ∧ backup fs' !! p = Some c
         else target fs' !! p = Some c ∧ backup fs' !! p = None
     | None => target fs' !! p = None ∧ backup fs' !! p = None
     end) ∧
  (∀ q, load_state fs !! q = None →
     target fs' !! q = target fs !! q ∧ backup fs' !! q = backup fs !! q) ∧
  state_file fs' = None ∧
  (∀ d, d ∈ backup_dirs fs' ↔ d ∈ backup_dirs fs ∧ has_child d fs').
Proof.
  intros Hl Hne. rewrite (revert_unfold wf fs Hl Hne). simpl.
  set (ps := (map_to_list (load_state fs)).*1).
  assert (NoDup ps) as Hnd by apply NoDup_fst_map_to_list.
  assert (∀ p, p ∈ ps ↔ is_Some (load_state fs !! p)) as Hps.
  { intros p. unfold ps. rewrite list_elem_of_fmap. split.
    - intros ([p' e] & -> & Hin). apply elem_of_map_to_list in Hin. by eexists.
    - intros [e He]. exists (p, e). split; [done|]. by apply elem_of_map_to_list. }
  destruct (restore_all_spec wf ps (open_lock fs) Hnd)
    as (Hs & Hd & _ & _ & _ & _ & Hframe & Hat).
  set (fs1 := restore_all wf ps (open_lock fs)) in *.
  destruct (prune_spec (set_state_file None fs1))
    as (Hb & Ht & Hsf & _ & _ & _ & _ & Hdirs).
  set (fs' := prune (set_state_file None fs1)) in *.
  change (backup (set_state_file None fs1)) with (backup fs1) in Hb.
  change (target (set_state_file None fs1)) with (target fs1) in Ht.
  change (backup_dirs (set_state_file None fs1)) with (backup_dirs fs1) in Hdirs.
  split; [done|]. split; [|split; [|split]].
  - intros p Hp. apply Hps in Hp. specialize (Hat p Hp).
    by rewrite Hb, Ht.
  - intros q Hq. rewrite Hb, Ht. apply Hframe.
    intros Hin. apply Hps in Hin as [e He]. congruence.
  - exact Hsf.
  - intros d. rewrite (Hdirs d), Hd. done.
Qed.


(** C1 (amended): for patch files none of which is named like one of the two
    bookkeeping files of the backup root, on a target that tracks nothing yet
    and whose backup root holds no file at the path of a patch file without
    target file: when [apply] succeeds and the [revert] run right after it
    meets no failing copy onto the paths of the patch files, every regular
    file of the target that existed before the [apply] has its content of
    then, every regular file [apply] created is removed, and the state file
    is deleted.  The write failures of the two runs are independent of each
    other. *)
Theorem apply_revert_roundtrip h wf wf' fs fs1 n files :
  patch_files fs = Some files →
  NoDup files.*1 →
  Forall (λ p, ¬ bookkeeping_name p) files.*1 →
  load_state fs = ∅ →
  (∀ p, p ∈ files.*1 → target fs !! p = None → backup fs !! p = None) →
  apply compute_checksum h wf fs = (fs1, Patched n) →
  (∀ p, p ∈ files.*1 → wf' p = false) →
  (revert wf' fs1).2 = Reverted n ∧
  (∀ p c, target fs !! p = Some c → target (revert wf' fs1).1 !! p = Some c) ∧
  (∀ p, target fs !! p = None → target (revert wf' fs1).1 !! p = None) ∧
  state_file (revert wf' fs1).1 = None.
Proof.
  intros Hpf Hnd _ Hst Hstale Ha Hwf'.
  assert ((revert wf' fs1).2 = Reverted n ∧
          target (revert wf' fs1).1 = target fs ∧
          state_file (revert wf' fs1).1 = None) as (Hr & Ht & Hs);
    [|split; [done|]; split; [|split; [|done]]; intros p; rewrite Ht; done].
  destruct (apply_Patched_spec _ _ _ _ _ _ Ha Hpf Hnd)
    as (ops & ns & Hplan & Hsf & Hn & Hne & Hl & _ & Hops & Hframe).
  pose proof (planned_paths _ _ _ _ _ Hplan) as Hpaths.
  assert (load_state fs1 = ns) as Hls by (unfold load_state; by rewrite Hsf).
  (* the entries of the new state are the patch files *)
  assert (∀ p, is_Some (ns !! p) ↔ p ∈ files.*1) as Hdom.
  { intros p. split.
    - intros Hs. destruct (decide (p ∈ files.*1)) as [|Hn']; [done|].
      destruct (Hframe p Hn') as (_ & _ & Hq). rewrite Hq, Hst, lookup_empty in Hs.
      by destruct Hs.
    - rewrite <- Hpaths. intros Hin.
      apply list_elem_of_fmap in Hin as (op & -> & Hop).
      destruct (Hops op Hop) as (_ & _ & Hns & _). by eexists. }
  assert (ns ≠ ∅) as Hnempty.
  { destruct files as [|[p c] rest]; [done|]. intros He.
    assert (is_Some (ns !! p)) as [e Hp] by (apply Hdom; simpl; apply elem_of_cons; by left).
    by rewrite He, lookup_empty in Hp. }
  assert (size ns = n) as Hsize.
  { rewrite Hn, <- (length_fmap fst files).
    rewrite <- size_dom, <- (size_list_to_set (C := gset path) files.*1) by done.
    f_equal. apply set_eq. intros p.
    rewrite elem_of_dom, elem_of_list_to_set. apply Hdom. }
  rewrite <- Hls in Hnempty.
  destruct (revert_entries wf' fs1 Hl Hnempty) as (Hout & Hin & Hother & Hsfile & _).
  rewrite Hls in *. rewrite Hsize in Hout.
  split; [done|]. split; [|done].
  apply map_eq. intros p.
  destruct (decide (p ∈ files.*1)) as [Hp|Hp].
  - specialize (Hin p (proj2 (Hdom p) Hp)).
    pose proof (Hwf' p Hp) as Hwf.
    pose proof Hp as Hp'. rewrite <- Hpaths in Hp'.
    apply list_elem_of_fmap in Hp' as (op & -> & Hop).
    destruct (Hops op Hop) as (_ & _ & _ & Hbk & _).
    assert (fresh_backup (load_state fs) op
            = bool_decide (is_Some (target fs !! op_relative_path op))) as Hfresh.
    { apply list_elem_of_lookup in Hop as [i Hi].
      destruct (Forall2_lookup_r _ _ _ _ _ Hplan Hi) as ([q c] & Hf & Hq & Hc & Hk).
      simpl in *. subst q.
      unfold check_conflicts in Hk. rewrite Hst, lookup_empty in Hk.
      assert (match target fs !! op_relative_path op with
              | Some _ => None | None => None end = (None : option conflict))
        as E by (by destruct (target fs !! op_relative_path op)).
      rewrite E in Hk. destruct Hk as [Hnb Hfr].
      unfold fresh_backup. rewrite Hst, lookup_empty, Hnb.
      rewrite (bool_decide_eq_true_2 (None = None)) by done.
      by rewrite andb_true_r. }
    rewrite Hfresh in Hbk. rewrite Hwf in Hin.
    destruct (target fs !! op_relative_path op) as [c0|] eqn:Ht.
    + rewrite bool_decide_eq_true_2 in Hbk by (by eexists).
      rewrite Hbk in Hin. by destruct Hin as [-> _].
    + rewrite bool_decide_eq_false_2 in Hbk by (by intros [? ?]).
      rewrite Hbk, (Hstale _ Hp Ht) in Hin. by destruct Hin as [-> _].
  - destruct (Hframe p Hp) as (Ht & _ & Hq).
    rewrite Hst, lookup_empty in Hq.
    destruct (Hother p Hq) as [-> _]. done.
Qed.

(** *** The invariant of the persisted state *)


Lemma execute_op_backup_mono wf st op fs fs1 r :
  execute_op compute_checksum wf st op fs = (fs1, r) →
  ∀ q, is_Some (backup fs !! q) → is_Some (backup fs1 !! q).
Proof.
  intros H q Hq. destruct r as [e|].
  - apply execute_op_Some in H as (_ & _ & _ & _ & _ & _ & _ & _ & _ & _ & Hf).
    destruct (fresh_backup st op).
    + destruct Hf as (c & _ & -> & _).
      destruct (decide (op_relative_path op = q)) as [->|Hne].
      * rewrite lookup_insert_eq. by eexists.
      * by rewrite lookup_insert_ne.
    + by destruct Hf as (-> & _).
  - apply execute_op_None in H as (_ & _ & _ & _ & _ & _ & [->|(c & _ & ->)]); [done|].
    destruct (decide (op_relative_path op = q)) as [->|Hne].
    + rewrite lookup_insert_eq. by eexists.
    + by rewrite lookup_insert_ne.
Qed.



(** *** [apply] that fails *)

Lemma execute_backup_mono wf st ops fs ns pf fs' ns' pf' b :
  execute compute_checksum wf st ops fs ns pf = (fs', ns', pf', b) →
  ∀ q, is_Some (backup fs !! q) → is_Some (backup fs' !! q).
Proof.
  revert fs ns pf. induction ops as [|op rest IH]; intros fs ns pf H q Hq;
    simpl in H.
  { by injection H as <- <- <- <-. }
  destruct (execute_op compute_checksum wf st op fs) as [fs1 [e|]] eqn:Hop.
  - eapply IH; [exact H|]. by eapply execute_op_backup_mono.
  - injection H as <- <- <- <-. by eapply execute_op_backup_mono.
Qed.

(** After the rollback the state file holds the state loaded at the start,
    and no backup file is lost, those made during the failed run included. *)
Lemma apply_failed_keeps_state_and_backups h wf fs fs' :
  apply compute_checksum h wf fs = (fs', Failed PatchingFailed) →
  state_file fs' = Some (load_state fs) ∧
  ∃ fs1 ops ns pf,
    execute compute_checksum wf (load_state fs) ops (open_lock fs) (load_state fs) []
      = (fs1, ns, pf, false) ∧
    backup fs' = backup fs1 ∧
    ∀ q, is_Some (backup fs !! q) → is_Some (backup fs' !! q).
Proof.
  unfold apply. autorewrite with fsdb.
  destruct (lock_held fs); [intros [= _ ?]; done|].
  destruct (target_exists fs); simpl; [|intros [= _ ?]; done].
  destruct (patch_files fs) as [[|f files]|]; try (intros [= _ ?]; done).
  destruct (plan _ _ _ _ _) as [ops|] eqn:Hplan; [|intros [= _ ?]; done].
  destruct (execute _ _ _ _ _ _ _) as [[[fs1 ns] pf] []] eqn:Hex;
    [intros [= _ ?]; done|].
  intros [= <-]. split; [done|]. exists fs1, ops, ns, pf. split; [done|].
  destruct (rollback_spec wf pf fs1) as (_ & _ & _ & _ & _ & _ & Hb).
  split; [exact Hb|]. intros q Hq.
  change (backup (save_state (load_state fs) (rollback wf pf fs1)))
    with (backup (rollback wf pf fs1)).
  rewrite Hb. by eapply execute_backup_mono.
Qed.




(** C8: with the lock free, [apply] raises the error of a missing target
    directory when the target root does not exist and the error of a missing
    patches directory when the target exists and the patch source root does
    not, both ending with a non-zero exit status; on an existing patch source
    without files it returns normally, exit status 0, with the target files,
    the backups and the state file as they were. *)
Theorem apply_preconditions h wf (fs : FS) :
  lock_held fs = false →
  (target_exists fs = false →
     (apply compute_checksum h wf fs).2 = Failed TargetMissing ∧
     exit_code (apply compute_checksum h wf fs).2 ≠ 0) ∧
  (target_exists fs = true → patch_files fs = None →
     (apply compute_checksum h wf fs).2 = Failed PatchSourceMissing ∧
     exit_code (apply compute_checksum h wf fs).2 ≠ 0) ∧
  (target_exists fs = true → patch_files fs = Some [] →
     (apply compute_checksum h wf fs).2 = NoPatchFiles ∧
     exit_code (apply compute_checksum h wf fs).2 = 0 ∧
     target (apply compute_checksum h wf fs).1 = target fs ∧
     backup (apply compute_checksum h wf fs).1 = backup fs ∧
     backup_dirs (apply compute_checksum h wf fs).1 = backup_dirs fs ∧
     state_file (apply compute_checksum h wf fs).1 = state_file fs).
Proof.
  intros Hl. unfold apply. autorewrite with fsdb. rewrite Hl.
  split; [|split].
  - intros ->. simpl. done.
  - intros -> ->. simpl. done.
  - intros -> ->. simpl. done.
Qed.

(** C4: when the operator answers abort at a candidate in conflict, [apply]
    prints the abort message and returns normally, exit status 0, and the
    target files, the backup files and directories and the state file are
    what they were before the call. *)
Theorem abort_no_side_effects h wf (fs : FS) (files : list (path * content))
    (p : path) (c : content) (k : conflict) :
  lock_held fs = false →
  target_exists fs = true →
  patch_files fs = Some files →
  (p, c) ∈ files →
  check_conflicts compute_checksum p fs (load_state fs) = Some k →
  h p k = abort →
  (apply compute_checksum h wf fs).2 = Aborted ∧
  exit_code (apply compute_checksum h wf fs).2 = 0 ∧
  target (apply compute_checksum h wf fs).1 = target fs ∧
  backup (apply compute_checksum h wf fs).1 = backup fs ∧
  backup_dirs (apply compute_checksum h wf fs).1 = backup_dirs fs ∧
  state_file (apply compute_checksum h wf fs).1 = state_file fs.
Proof.
  intros Hl Ht Hpf Hin Hc Ha.
  assert (plan compute_checksum h (open_lock fs) (load_state (open_lock fs)) files = None)
    as Hplan by (by eapply plan_abort).
  rewrite load_state_open_lock in Hplan.
  unfold apply. autorewrite with fsdb. rewrite Hl, Ht, Hpf, Hplan. simpl.
  destruct files; [by apply elem_of_nil in Hin|done].
Qed.

End Properties.

(** ** The conflict prompt *)

Section PromptProperties.

Context (str_lower str_strip : string → string).
Context (compute_checksum : content → digest).

Implicit Types (wf : path → bool) (fs : FS) (st : gmap path PatchedFile).
Implicit Types (p q : path) (c : content) (k : conflict).
Implicit Types (files : list (path * content)) (stdin : list string).

Lemma handle_conflict_skips p k (skipped : list string) (line : string)
    (rest : list string) (a : action) :
  Forall (invalid_line str_lower str_strip) skipped →
  parse_choice (str_strip (str_lower line)) = Some a →
  handle_conflict str_lower str_strip p k (skipped ++ line :: rest)
  = (Some a, rest).
Proof.
  intros Hs Hl. induction Hs as [|l ls Hinv _ IH]; simpl.
  - by rewrite Hl.
  - unfold invalid_line in Hinv. by rewrite Hinv.
Qed.

Lemma handle_conflict_eof p k stdin :
  (handle_conflict str_lower str_strip p k stdin).1 = None
  ↔ Forall (invalid_line str_lower str_strip) stdin.
Proof.
  induction stdin as [|l ls IH]; simpl.
  - split; [constructor|done].
  - destruct (parse_choice (str_strip (str_lower l))) as [a|] eqn:Hl; simpl.
    + split; [done|]. intros HF. apply Forall_cons in HF as [Hinv _].
      unfold invalid_line in Hinv. congruence.
    + rewrite IH. split.
      * intros HF. by constructor.
      * intros HF. by apply Forall_cons in HF as [_ ?].
Qed.

(** X1: the prompt skips every line that is no valid choice and returns the
    action of the first valid one, leaving the lines after it unread. *)
Theorem handle_conflict_first_valid p k (skipped : list string)
    (line : string) (rest : list string) (a : action) :
  Forall (invalid_line str_lower str_strip) skipped →
  parse_choice (str_strip (str_lower line)) = Some a →
  handle_conflict str_lower str_strip p k (skipped ++ line :: rest)
  = (Some a, rest).
Proof. apply handle_conflict_skips. Qed.

(** X2: the prompt ends in [EOFError] exactly when none of the lines left on
    standard input is a valid choice; there is no default answer. *)
Theorem handle_conflict_eof_iff p k stdin :
  (handle_conflict str_lower str_strip p k stdin).1 = None
  ↔ Forall (invalid_line str_lower str_strip) stdin.
Proof. apply handle_conflict_eof. Qed.

Lemma plan_cons (h : path → conflict → action) fs st p c files :
  plan compute_checksum h fs st ((p, c) :: files) =
  match (if bool_decide (is_Some (target fs !! p))
         then check_conflicts compute_checksum p fs st else None) with
  | Some k =>
      match h p k with
      | abort => None
      | force =>
          ops ← plan compute_checksum h fs st files;
          Some (mkOperation c p false false :: ops)
      | re_backup =>
          ops ← plan compute_checksum h fs st files;
          Some (mkOperation c p (bool_decide (is_Some (target fs !! p))) true
                  :: ops)
      end
  | None =>
      ops ← plan compute_checksum h fs st files;
      Some (mkOperation c p (bool_decide (is_Some (target fs !! p))) false
              :: ops)
  end.
Proof. done. Qed.

(** The answers read from standard input can be given as an oracle. *)
Lemma plan_stdin_oracle fs st files :
  NoDup files.*1 →
  ∀ stdin,
    match plan_stdin str_lower str_strip compute_checksum stdin fs st files with
    | Planned ops _ => ∃ h, plan compute_checksum h fs st files = Some ops
    | PlanAborted _ => ∃ h, plan compute_checksum h fs st files = None
    | PlanEOF => True
    end.
Proof.
  induction files as [|[p c] rest IH]; intros Hnd stdin.
  { simpl. by exists (λ _ _, abort). }
  rewrite fmap_cons in Hnd. apply NoDup_cons in Hnd as [Hp Hnd].
  specialize (IH Hnd).
  assert (∀ (a : action) h', ∃ h : path → conflict → action,
            (∀ k, h p k = a) ∧
            plan compute_checksum h fs st rest
            = plan compute_checksum h' fs st rest) as Hext.
  { intros a h'. exists (λ q k, if decide (q = p) then a else h' q k).
    split; [intros k; by rewrite decide_True|].
    apply plan_ext. intros q c' k Hin _.
    rewrite decide_False; [done|]. intros ->. apply Hp.
    by apply (list_elem_of_fmap_2 fst) in Hin. }
  cbn [plan_stdin].
  destruct (if bool_decide (is_Some (target fs !! p))
            then check_conflicts compute_checksum p fs st else None)
    as [k|] eqn:Hc.
  - destruct (handle_conflict str_lower str_strip p k stdin) as [[[]|] stdin1].
    + exists (λ _ _, abort). by rewrite plan_cons, Hc.
    + specialize (IH stdin1).
      destruct (plan_stdin _ _ _ stdin1 fs st rest) as [ops s1|s1|]; cbn [append_operation]; [| |done];
        destruct IH as [h' Hh']; destruct (Hext re_backup h') as (h & Ha & Hr);
        exists h; rewrite plan_cons, Hc, Ha, Hr, Hh'; done.
    + specialize (IH stdin1).
      destruct (plan_stdin _ _ _ stdin1 fs st rest) as [ops s1|s1|]; cbn [append_operation]; [| |done];
        destruct IH as [h' Hh']; destruct (Hext force h') as (h & Ha & Hr);
        exists h; rewrite plan_cons, Hc, Ha, Hr, Hh'; done.
    + done.
  - specialize (IH stdin).
    destruct (plan_stdin _ _ _ stdin fs st rest) as [ops s1|s1|]; cbn [append_operation]; [| |done];
      destruct IH as [h' Hh']; exists h'; rewrite plan_cons, Hc, Hh'; done.
Qed.

(** X3: every run of [apply] at the prompt that does not end in [EOFError]
    is the run of [apply] for some fixed way of answering the conflicts: it
    ends in the same file system with the same outcome. *)
Theorem apply_stdin_refines stdin wf fs fs' (o : outcome) :
  (∀ files, patch_files fs = Some files → NoDup files.*1) →
  apply_stdin str_lower str_strip compute_checksum stdin wf fs = (fs', Some o) →
  ∃ h, apply compute_checksum h wf fs = (fs', o).
Proof.
  intros Hnd. unfold apply_stdin, apply.
  destruct (lock_held (open_lock fs)).
  { intros [= <- <-]. by exists (λ _ _, abort). }
  destruct (negb (target_exists (open_lock fs))).
  { intros [= <- <-]. by exists (λ _ _, abort). }
  destruct (patch_files (open_lock fs)) as [[|f files]|] eqn:Hpf;
    try (intros [= <- <-]; by exists (λ _ _, abort)).
  pose proof (plan_stdin_oracle (open_lock fs) (load_state (open_lock fs))
                (f :: files) (Hnd _ Hpf) stdin) as Hor.
  destruct (plan_stdin _ _ _ stdin (open_lock fs) _ (f :: files))
    as [ops s1|s1|]; [| |done].
  - destruct Hor as [h Hh]. intros Hex. exists h. rewrite Hh.
    destruct (execute _ _ _ _ _ _ _) as [[[fs1 ns] pf] []];
      by injection Hex as <- <-.
  - destruct Hor as [h Hh]. intros [= <- <-]. exists h. by rewrite Hh.
Qed.

Lemma plan_stdin_eof stdin fs st files p c k :
  Forall (invalid_line str_lower str_strip) stdin →
  (p, c) ∈ files →
  check_conflicts compute_checksum p fs st = Some k →
  plan_stdin str_lower str_strip compute_checksum stdin fs st files = PlanEOF.
Proof.
  intros Hinv Hin Hc.
  induction files as [|[q c'] rest IH]; [by apply elem_of_nil in Hin|].
  simpl.
  destruct (if bool_decide (is_Some (target fs !! q))
            then check_conflicts compute_checksum q fs st else None)
    as [k'|] eqn:Hq.
  - pose proof (proj2 (handle_conflict_eof q k' stdin) Hinv) as He.
    destruct (handle_conflict str_lower str_strip q k' stdin) as [[a|] s1];
      [done|done].
  - apply elem_of_cons in Hin as [[= <- <-]|Hin].
    + assert (is_Some (target fs !! p)) as Hs.
      { unfold check_conflicts in Hc. destruct (target fs !! p); [by eexists|done]. }
      rewrite bool_decide_eq_true_2 in Hq by done. congruence.
    + by rewrite (IH Hin).
Qed.

(** X4: when a patch file is in conflict and standard input holds no valid
    choice, [apply] ends in the [EOFError] of the prompt, exit status 1,
    before anything but the lock file was written. *)
Theorem apply_stdin_eof stdin wf fs files p c k :
  lock_held fs = false →
  target_exists fs = true →
  patch_files fs = Some files →
  (p, c) ∈ files →
  check_conflicts compute_checksum p fs (load_state fs) = Some k →
  Forall (invalid_line str_lower str_strip) stdin →
  apply_stdin str_lower str_strip compute_checksum stdin wf fs
    = (open_lock fs, None) ∧
  exit_status
    (apply_stdin str_lower str_strip compute_checksum stdin wf fs).2 = 1.
Proof.
  intros Hl Ht Hpf Hin Hc Hinv.
  assert (apply_stdin str_lower str_strip compute_checksum stdin wf fs
          = (open_lock fs, None)) as E; [|by rewrite E].
  unfold apply_stdin.
  change (lock_held (open_lock fs)) with (lock_held fs).
  change (target_exists (open_lock fs)) with (target_exists fs).
  change (patch_files (open_lock fs)) with (patch_files fs).
  rewrite Hl, Ht, Hpf. simpl.
  destruct files as [|f rest]; [by apply elem_of_nil in Hin|].
  by rewrite (plan_stdin_eof stdin (open_lock fs) (load_state (open_lock fs))
                (f :: rest) p c k Hinv Hin Hc).
Qed.

End PromptProperties.

(** ** The checksum read in chunks *)

Section ChecksumProperties.

Context (hash_state : Type) (hash_new : hash_state).
Context (hash_update : hash_state → list Ascii.ascii → hash_state).
Context (hexdigest : hash_state → digest).

Lemma update_chunks_S (fuel : nat) (h : hash_state) (rest : list Ascii.ascii) :
  update_chunks hash_state hash_update (S fuel) h rest =
  if decide (take 8192 rest = []) then Some h
  else update_chunks hash_state hash_update fuel
         (hash_update h (take 8192 rest)) (drop 8192 rest).
Proof. reflexivity. Qed.

Lemma update_chunks_whole (fuel : nat) (h : hash_state) (rest : list Ascii.ascii) :
  (∀ h0, hash_update h0 [] = h0) →
  (∀ h0 a b, hash_update (hash_update h0 a) b = hash_update h0 (a ++ b)) →
  length rest < fuel →
  update_chunks hash_state hash_update fuel h rest = Some (hash_update h rest).
Proof.
  intros Hnil Happ. revert h rest.
  induction fuel as [|fuel IH]; intros h rest Hlen; [lia|].
  rewrite update_chunks_S.
  assert (∃ n, 8192 = S n) as [n E] by (eexists; vm_compute; reflexivity).
  rewrite E. clear E.
  destruct rest as [|b rest].
  { rewrite take_nil. by rewrite decide_True, Hnil. }
  rewrite decide_False by (simpl; discriminate).
  rewrite IH.
  - by rewrite Happ, take_drop.
  - rewrite length_drop. simpl in *. lia.
Qed.

(** X5: reading the file in chunks of 8192 bytes until the empty chunk feeds
    the hash object the whole file, whatever its length: the digest is the
    one of a single update with all the bytes, given that updates of the
    hash object concatenate. *)
Theorem compute_checksum_chunked_whole (file : list Ascii.ascii) :
  (∀ h, hash_update h [] = h) →
  (∀ h a b, hash_update (hash_update h a) b = hash_update h (a ++ b)) →
  compute_checksum_chunked hash_state hash_new hash_update hexdigest file
  = Some (hexdigest (hash_update hash_new file)).
Proof.
  intros Hnil Happ. unfold compute_checksum_chunked.
  rewrite update_chunks_whole; [done|done|done|lia].
Qed.

End ChecksumProperties.

(** ** More on [apply], [revert] and [status] *)

Section EngineProperties.

Context (compute_checksum : content → digest).

Implicit Types (h : path → conflict → action) (wf : path → bool).
Implicit Types (fs : FS) (st ns : gmap path PatchedFile).
Implicit Types (p q d : path) (c : content).
Implicit Types (files : list (path * content)) (ops : list Operation).


(** The rollback, path by path: a path that was patched gets its backup
    back, or is removed when it has none. *)
Lemma rollback_target wf (ps : list path) fs p :
  target (rollback wf ps fs) !! p =
  if decide (p ∈ ps)
  then match backup fs !! p with
       | Some c => if wf p then target fs !! p else Some c
       | None => None
       end
  else target fs !! p.
Proof.
  revert fs. induction ps as [|a ps IH]; intros fs; [done|].
  simpl. change (foldl _ ?x ps) with (rollback wf ps x).
  destruct (restore_file_spec wf a false fs)
    as (_ & _ & _ & _ & _ & _ & Hframe & Hat).
  simpl in Hframe, Hat.
  set (fs1 := default fs (restore_file wf a false fs)) in *.
  rewrite IH.
  assert (backup fs1 = backup fs) as Hb.
  { apply map_eq. intros q. destruct (decide (q = a)) as [->|Hne].
    - destruct (backup fs !! a) as [c|] eqn:E.
      + destruct (wf a); by destruct Hat as [_ ->].
      + by destruct Hat as [_ ->].
    - by destruct (Hframe q Hne) as [_ ->]. }
  rewrite Hb.
  destruct (decide (p = a)) as [->|Hne].
  - rewrite (decide_True (P := a ∈ a :: ps)) by (apply elem_of_cons; by left).
    destruct (decide (a ∈ ps)) as [Hin|Hnin].
    + destruct (backup fs !! a) as [c|]; [|done].
      destruct (wf a); [|done]. by destruct Hat as [-> _].
    + destruct (backup fs !! a) as [c|].
      * destruct (wf a); by destruct Hat as [-> _].
      * by destruct Hat as [-> _].
  - destruct (Hframe p Hne) as [Ht _]. rewrite Ht.
    destruct (decide (p ∈ ps)) as [Hin|Hnin].
    + rewrite decide_True; [done|]. apply elem_of_cons. by right.
    + rewrite decide_False; [done|]. intros Hin. apply elem_of_cons in Hin as [|]; done.
Qed.

Lemma apply_Failed_inv h wf fs fs' :
  apply compute_checksum h wf fs = (fs', Failed PatchingFailed) →
  ∃ files ops fs1 ns pf,
    patch_files fs = Some files ∧
    plan compute_checksum h (open_lock fs) (load_state fs) files = Some ops ∧
    execute compute_checksum wf (load_state fs) ops (open_lock fs)
            (load_state fs) [] = (fs1, ns, pf, false) ∧
    fs' = save_state (load_state fs) (rollback wf pf fs1).
Proof.
  unfold apply.
  change (lock_held (open_lock fs)) with (lock_held fs).
  change (target_exists (open_lock fs)) with (target_exists fs).
  change (patch_files (open_lock fs)) with (patch_files fs).
  change (load_state (open_lock fs)) with (load_state fs).
  destruct (lock_held fs); [intros [= _ ?]; done|].
  destruct (target_exists fs); simpl; [|intros [= _ ?]; done].
  destruct (patch_files fs) as [[|f files]|]; try (intros [= _ ?]; done).
  destruct (plan _ _ _ _ _) as [ops|] eqn:Hplan; [|intros [= _ ?]; done].
  destruct (execute _ _ _ _ _ _ _) as [[[fs1 ns] pf] []] eqn:Hex;
    [intros [= _ ?]; done|].
  intros [= <-]. by exists (f :: files), ops, fs1, ns, pf.
Qed.

(** What [apply] returns is one of five things. *)
Lemma apply_cases h wf fs :
  (apply compute_checksum h wf fs).1 = open_lock fs ∨
  (∃ n, (apply compute_checksum h wf fs).2 = Patched n) ∨
  (apply compute_checksum h wf fs).2 = Failed PatchingFailed.
Proof.
  unfold apply.
  destruct (lock_held (open_lock fs)); [by left|].
  destruct (negb (target_exists (open_lock fs))); [by left|].
  destruct (patch_files (open_lock fs)) as [[|f files]|]; try (by left).
  destruct (plan _ _ _ _ _) as [ops|]; [|by left].
  destruct (execute _ _ _ _ _ _ _) as [[[fs1 ns] pf] []]; simpl.
  - right. left. by eexists.
  - right. by right.
Qed.


(** X7: [apply] never deletes a backup file, whatever its outcome: a path
    that had a backup before the call has one after it. *)
Theorem apply_keeps_backups h wf fs q :
  is_Some (backup fs !! q) →
  is_Some (backup (apply compute_checksum h wf fs).1 !! q).
Proof.
  intros Hq.
  destruct (apply compute_checksum h wf fs) as [fs' o] eqn:Ha. simpl.
  destruct (apply_cases h wf fs) as [E|[[n E]|E]]; rewrite Ha in E; simpl in E.
  - by subst fs'.
  - subst o. apply apply_Patched_inv in Ha
      as (files & ops & fs1 & ns & pf & _ & _ & _ & _ & _ & Hex & -> & _).
    by apply (execute_backup_mono _ _ _ _ _ _ _ _ _ _ _ Hex).
  - subst o. apply apply_Failed_inv in Ha
      as (files & ops & fs1 & ns & pf & _ & _ & Hex & ->).
    destruct (rollback_spec wf pf fs1) as (_ & _ & _ & _ & _ & _ & Hbk).
    change (backup (save_state (load_state fs) (rollback wf pf fs1)))
      with (backup (rollback wf pf fs1)).
    rewrite Hbk. by apply (execute_backup_mono _ _ _ _ _ _ _ _ _ _ _ Hex).
Qed.

(** A loop that an exception leaves ran a first part of its operations to
    the end and raised in the next one. *)
Lemma execute_failure_split wf st ops fs ns (pf : list path) fs1 ns'
    (pf' : list path) :
  execute compute_checksum wf st ops fs ns pf = (fs1, ns', pf', false) →
  ∃ (done : list Operation) (op : Operation) (rest : list Operation) fs_mid,
    ops = done ++ op :: rest ∧
    execute compute_checksum wf st done fs ns pf = (fs_mid, ns', pf', true) ∧
    execute_op compute_checksum wf st op fs_mid = (fs1, None).
Proof.
  revert fs ns pf. induction ops as [|op rest IH]; intros fs ns pf H; simpl in H.
  { by injection H. }
  destruct (execute_op compute_checksum wf st op fs) as [fs0 [e|]] eqn:Hop.
  - apply IH in H as (done & op' & rest' & fs_mid & -> & Hd & Hop').
    exists (op :: done), op', rest', fs_mid. split; [done|]. split; [|done].
    simpl. by rewrite Hop.
  - injection H as <- <- <-. by exists [], op, rest, fs.
Qed.

Lemma planned_fresh_untracked h fs st (f : path * content) (op : Operation) :
  planned compute_checksum h fs st f op →
  st !! f.1 = None →
  fresh_backup st op = bool_decide (is_Some (target fs !! f.1)).
Proof.
  intros (Hp & _ & Hk) Hst. unfold check_conflicts in Hk. rewrite Hst in Hk.
  assert (match target fs !! f.1 with
          | Some _ => None | None => None end = (None : option conflict)) as E
    by (by destruct (target fs !! f.1)).
  rewrite E in Hk. destruct Hk as [Hnb _].
  unfold fresh_backup. rewrite Hp, Hst, Hnb.
  rewrite (bool_decide_eq_true_2 (None = None)) by done.
  by rewrite andb_true_r.
Qed.

(** X8: the rollback puts back what the loop had patched.  For patch files
    that are not tracked yet (none named like a bookkeeping file), without
    backup left at the path of one that has no target file: when the
    execution loop is left by an exception, the rollback loop gives every
    file patched before the failing operation its content of before the
    call, removing those that did not exist, provided none of its own copies
    fails; it touches no other path.  The failures of the rollback are
    independent of those of the loop, and nothing is said of the file of
    the failing operation. *)
Theorem rollback_restores_patched_files h wf wf_r fs files ops fs1 ns
    (pf : list path) :
  NoDup files.*1 →
  Forall (λ p, ¬ bookkeeping_name p) files.*1 →
  (∀ p, p ∈ files.*1 → load_state fs !! p = None) →
  (∀ p, p ∈ files.*1 → target fs !! p = None → backup fs !! p = None) →
  plan compute_checksum h fs (load_state fs) files = Some ops →
  execute compute_checksum wf (load_state fs) ops fs (load_state fs) []
    = (fs1, ns, pf, false) →
  (∀ p, p ∈ pf → wf_r p = false) →
  (∀ p, p ∈ pf → target (rollback wf_r pf fs1) !! p = target fs !! p) ∧
  (∀ q, q ∉ pf → target (rollback wf_r pf fs1) !! q = target fs1 !! q) ∧
  backup (rollback wf_r pf fs1) = backup fs1.
Proof.
  intros Hnd _ Huntracked Hstale Hplan Hex Hwfr.
  apply plan_planned in Hplan.
  pose proof (planned_paths _ _ _ _ _ _ Hplan) as Hpaths.
  apply execute_failure_split in Hex
    as (done & op & rest & fs_mid & -> & Hdone & Hop).
  rewrite fmap_app, fmap_cons in Hpaths.
  assert (NoDup (op_relative_path <$> done)) as Hnd_done.
  { rewrite <- Hpaths in Hnd. by apply NoDup_app in Hnd as (? & _ & _). }
  assert (∀ q, q ∈ op_relative_path <$> done → q ≠ op_relative_path op) as Hne.
  { intros q Hq ->. rewrite <- Hpaths in Hnd.
    apply NoDup_app in Hnd as (_ & Hdisj & _). apply (Hdisj _ Hq).
    apply elem_of_cons. by left. }
  apply execute_success in Hdone as (Hpf_eq & Hops & Hframe); [|done].
  simpl in Hpf_eq. subst pf.
  apply execute_op_None in Hop as (Ht1 & _ & _ & _ & _ & _ & Hb1).
  split; [|split].
  - intros q Hq. rewrite rollback_target, decide_True by done.
    rewrite (Hwfr q Hq).
    assert (backup fs1 !! q = backup fs_mid !! q) as Hbq.
    { destruct Hb1 as [->|(c & _ & ->)]; [done|].
      rewrite lookup_insert_ne; [done|]. intros E. by apply (Hne q Hq). }
    rewrite Hbq.
    apply list_elem_of_fmap in Hq as (op' & -> & Hop').
    destruct (Hops op' Hop') as (_ & _ & _ & Hbk & _).
    simpl in Hbk. rewrite Hbk.
    assert (∃ f, f ∈ files ∧ planned compute_checksum h fs
                                 (load_state fs) f op') as (f & Hf & Hpl).
    { assert (op' ∈ done ++ op :: rest) as Hin
        by (apply elem_of_app; by left).
      apply list_elem_of_lookup in Hin as [i Hi].
      destruct (Forall2_lookup_r _ _ _ _ _ Hplan Hi) as (f & Hf & Hpl).
      exists f. split; [by eapply list_elem_of_lookup_2|done]. }
    pose proof Hpl as (Hp' & _).
    assert (f.1 ∈ files.*1) as Hfin by (by apply list_elem_of_fmap_2).
    rewrite (planned_fresh_untracked _ _ _ _ _ Hpl (Huntracked _ Hfin)).
    rewrite Hp'.
    destruct (target fs !! f.1) as [c0|] eqn:Ht0.
    + by rewrite bool_decide_eq_true_2 by (by eexists).
    + rewrite bool_decide_eq_false_2 by (by intros [? ?]).
      by rewrite (Hstale _ Hfin Ht0).
  - intros q Hq. by rewrite rollback_target, decide_False.
  - by destruct (rollback_spec wf_r (op_relative_path <$> done) fs1)
      as (_ & _ & _ & _ & _ & _ & ?).
Qed.

(** *** [status] *)

Lemma status_line fs p (e : PatchedFile) :
  load_state fs !! p = Some e →
  ∃ lines counts,
    status compute_checksum fs = Some (lines, counts) ∧
    (classify compute_checksum fs p e, p) ∈ lines.
Proof.
  intros Hp. unfold status.
  destruct (decide (load_state fs = ∅)) as [He|_].
  { rewrite He, lookup_empty in Hp. done. }
  eexists _, _. split; [reflexivity|].
  apply list_elem_of_fmap. exists (p, e). split; [done|].
  rewrite merge_sort_Permutation. by apply elem_of_map_to_list.
Qed.

(** X9: after a successful [apply], [status] reports every patch file as
    clean. *)
Theorem status_after_apply h wf fs fs' (n : nat) files p c :
  apply compute_checksum h wf fs = (fs', Patched n) →
  patch_files fs = Some files →
  NoDup files.*1 →
  (p, c) ∈ files →
  ∃ lines counts,
    status compute_checksum fs' = Some (lines, counts) ∧ (clean, p) ∈ lines.
Proof.
  intros Ha Hpf Hnd Hin.
  destruct (apply_Patched_spec _ _ _ _ _ _ _ Ha Hpf Hnd)
    as (ops & ns & Hplan & Hsf & _ & _ & _ & _ & Hops & _).
  destruct (planned_lookup _ _ _ _ _ _ _ _ Hplan Hin) as (op & Hop & Hp1 & Hp2 & _).
  simpl in Hp1, Hp2.
  destruct (Hops op Hop) as (_ & Htg & Hns & _).
  rewrite Hp1, Hp2 in *.
  assert (load_state fs' !! p
          = Some (entry_of compute_checksum (load_state fs) op (target fs !! p)))
    as He by (unfold load_state at 1; by rewrite Hsf).
  destruct (status_line fs' p _ He) as (lines & counts & Hst & Hl).
  exists lines, counts. split; [done|].
  unfold classify in Hl. rewrite Htg in Hl. simpl in Hl.
  rewrite Hp2 in Hl. by rewrite decide_True in Hl.
Qed.

Lemma count_status_total (l : list (file_status * path)) :
  count_status clean l + count_status MODIFIED l + count_status MISSING l
  = length l.
Proof.
  unfold count_status. induction l as [|[s p] l IH]; [done|].
  rewrite !filter_cons. simpl.
  destruct s; repeat case_decide; try done; simpl; lia.
Qed.

(** X10: when there are tracked files, [status] prints one line per tracked
    file, and the three numbers of its summary add up to the number of
    tracked files. *)
Theorem status_counts fs (lines : list (file_status * path))
    (n_clean n_modified n_missing : nat) :
  status compute_checksum fs
    = Some (lines, (n_clean, n_modified, n_missing)) →
  length lines = size (load_state fs) ∧
  n_clean + n_modified + n_missing = size (load_state fs).
Proof.
  unfold status. destruct (decide (load_state fs = ∅)); [done|].
  intros [= <- <- <- <-].
  rewrite count_status_total.
  rewrite length_fmap, merge_sort_Permutation, length_map_to_list. done.
Qed.

(** *** More on [revert] *)

Lemma load_state_None fs : state_file fs = None → load_state fs = ∅.
Proof. unfold load_state. by intros ->. Qed.

Lemma revert_fields wf fs :
  lock_held fs = false →
  lock_held (revert wf fs).1 = false ∧ lock_file (revert wf fs).1 = true ∧
  load_state (revert wf fs).1 = ∅.
Proof.
  intros Hl. destruct (decide (load_state fs = ∅)) as [He|Hne].
  - unfold revert. change (lock_held (open_lock fs)) with (lock_held fs).
    rewrite Hl. change (load_state (open_lock fs)) with (load_state fs).
    rewrite decide_True by done. done.
  - rewrite (revert_unfold wf fs Hl Hne). simpl.
    destruct (restore_all_spec wf (map_to_list (load_state fs)).*1 (open_lock fs)
                (NoDup_fst_map_to_list _))
      as (_ & _ & _ & _ & Hlf & Hlh & _).
    destruct (prune_spec (set_state_file None
                (restore_all wf (map_to_list (load_state fs)).*1 (open_lock fs))))
      as (_ & _ & Hs & _ & _ & Hlf' & Hlh' & _).
    split; [|split].
    + rewrite Hlh'. simpl. by rewrite Hlh.
    + rewrite Hlf'. simpl. by rewrite Hlf.
    + apply load_state_None. by rewrite Hs.
Qed.

(** X11: [revert] is idempotent: a second [revert] finds no patches applied
    and changes nothing. *)
Theorem revert_twice wf wf' fs :
  lock_held fs = false →
  revert wf' (revert wf fs).1 = ((revert wf fs).1, NoPatchesApplied).
Proof.
  intros Hl. destruct (revert_fields wf fs Hl) as (Hlh & Hlf & Hst).
  set (fs1 := (revert wf fs).1) in *.
  unfold revert. change (lock_held (open_lock fs1)) with (lock_held fs1).
  change (load_state (open_lock fs1)) with (load_state fs1).
  rewrite Hlh, decide_True by done.
  f_equal. by apply FS_eq.
Qed.

(** Without a file left in the backup tree, the clean-up removes every
    directory. *)
Lemma prune_without_files fs :
  backup fs = ∅ → backup_dirs (prune fs) = ∅.
Proof.
  intros Hb.
  destruct (prune_spec fs) as (Hb' & _ & _ & _ & _ & _ & _ & Hdirs).
  set (fs' := prune fs) in *.
  assert (∃ L, ∀ d, d ∈ backup_dirs fs' → length d ≤ L) as [L HL].
  { assert (∀ (l : list path), ∃ L, ∀ d, d ∈ l → length d ≤ L) as Hbound.
    { induction l as [|a l [L IH]]; [exists 0; intros d Hd; by apply elem_of_nil in Hd|].
      exists (max (length a) L). intros d Hd.
      apply elem_of_cons in Hd as [->|Hd]; [lia|]. specialize (IH d Hd). lia. }
    destruct (Hbound (elements (backup_dirs fs'))) as [L HL].
    exists L. intros d Hd. apply HL. by apply elem_of_elements. }
  assert (∀ (n : nat) d, d ∈ backup_dirs fs' → L < length d + n → False) as Hno.
  { induction n as [|n IH]; intros d Hd Hlt.
    - specialize (HL d Hd). lia.
    - apply Hdirs in Hd as [_ (x & Hx & Hp)].
      rewrite Hb', Hb, dom_empty_L in Hx.
      apply elem_of_union in Hx as [Hx|Hx]; [by apply elem_of_empty in Hx|].
      apply is_parent_length in Hp. apply (IH x Hx). lia. }
  apply set_eq. intros d. split; [|intros Hd; by apply elem_of_empty in Hd].
  intros Hd. exfalso. apply (Hno (S L) d Hd). lia.
Qed.

(** X12: when every backup file belongs to a tracked path and no copy onto
    the target fails, [revert] leaves the backup root without backup file
    and without directory, and without state file. *)
Theorem revert_empties_backup_root wf fs :
  lock_held fs = false →
  load_state fs ≠ ∅ →
  (∀ p, is_Some (backup fs !! p) →
        is_Some (load_state fs !! p) ∧ wf p = false) →
  backup (revert wf fs).1 = ∅ ∧
  backup_dirs (revert wf fs).1 = ∅ ∧
  state_file (revert wf fs).1 = None.
Proof.
  intros Hl Hne Hall.
  destruct (revert_entries wf fs Hl Hne) as (_ & Hin & Hout & Hs & _).
  rewrite (revert_unfold wf fs Hl Hne) in *. simpl in *.
  set (fs2 := set_state_file None
                (restore_all wf (map_to_list (load_state fs)).*1 (open_lock fs)))
    in *.
  destruct (prune_spec fs2) as (Hb & _).
  assert (backup fs2 = ∅) as Hempty.
  { rewrite <- Hb. apply map_eq. intros p. rewrite lookup_empty.
    destruct (load_state fs !! p) as [e|] eqn:Hp.
    - specialize (Hin p (ltac:(by eexists))).
      destruct (backup fs !! p) as [c|] eqn:Hbp.
      + destruct (Hall p (ltac:(by eexists))) as [_ Hwf]. rewrite Hwf in Hin.
        by destruct Hin as [_ ->].
      + by destruct Hin as [_ ->].
    - destruct (Hout p Hp) as [_ ->].
      destruct (backup fs !! p) as [c|] eqn:Hbp; [|done].
      destruct (Hall p (ltac:(by eexists))) as [[e He] _]. congruence. }
  split; [by rewrite Hb|]. split; [|done].
  by apply prune_without_files.
Qed.

(** *** The two resolutions of a conflict that go on *)

(** What [revert] makes of a tracked path whose copy does not fail. *)
Lemma revert_tracked wf fs p (e : PatchedFile) :
  lock_held fs = false →
  load_state fs !! p = Some e →
  wf p = false →
  target (revert wf fs).1 !! p = backup fs !! p.
Proof.
  intros Hl Hp Hwf.
  assert (load_state fs ≠ ∅) as Hne.
  { intros He. by rewrite He, lookup_empty in Hp. }
  destruct (revert_entries wf fs Hl Hne) as (_ & Hin & _).
  specialize (Hin p (ltac:(by eexists))). simpl in Hin.
  destruct (backup fs !! p) as [c0|].
  - rewrite Hwf in Hin. by destruct Hin as [-> _].
  - by destruct Hin as [-> _].
Qed.

(** X13: re-backup.  When the operator answers re-backup for a file in
    conflict (not named like a bookkeeping file) and [apply] succeeds, the
    modified file found on the target is the new backup and its checksum
    the new original checksum; a [revert] whose copy onto that file does not
    fail then gives the modified file back.  The write failures of the
    [revert] are independent of those of the [apply]. *)
Theorem rebackup_keeps_modified h wf wf' fs fs1 (n : nat) files p c
    (k : conflict) :
  apply compute_checksum h wf fs = (fs1, Patched n) →
  patch_files fs = Some files →
  NoDup files.*1 →
  (p, c) ∈ files →
  ¬ bookkeeping_name p →
  check_conflicts compute_checksum p fs (load_state fs) = Some k →
  h p k = re_backup →
  ∃ m, target fs !! p = Some m ∧
       target fs1 !! p = Some c ∧
       backup fs1 !! p = Some m ∧
       load_state fs1 !! p
         = Some (mkPatchedFile p (Some (compute_checksum m))
                               (compute_checksum c) true) ∧
       (wf' p = false → target (revert wf' fs1).1 !! p = Some m).
Proof.
  intros Ha Hpf Hnd Hin _ Hc Hh.
  destruct (apply_Patched_spec _ _ _ _ _ _ _ Ha Hpf Hnd)
    as (ops & ns & Hplan & Hsf & _ & _ & Hl & _ & Hops & _).
  destruct (planned_lookup _ _ _ _ _ _ _ _ Hplan Hin) as (op & Hop & Hp1 & Hp2 & Hk).
  simpl in Hp1, Hp2, Hk. rewrite Hc in Hk.
  destruct Hk as [(Hf & _)|(_ & Hnb & Hfr)]; [congruence|].
  assert (fresh_backup (load_state fs) op = true) as Hfresh.
  { unfold fresh_backup. rewrite Hnb, Hfr. by rewrite orb_true_r. }
  destruct (Hops op Hop) as (_ & Htg & Hns & Hbk & Hsome).
  rewrite Hp1, Hp2 in *. rewrite Hfresh in Hbk.
  destruct (Hsome Hfresh) as [m Hm].
  assert (load_state fs1 !! p
          = Some (mkPatchedFile p (Some (compute_checksum m))
                                (compute_checksum c) true)) as He.
  { unfold load_state at 1. rewrite Hsf. simpl. rewrite Hns.
    unfold entry_of. by rewrite Hfresh, Hnb, Hp1, Hp2, Hm. }
  exists m. split; [done|]. split; [done|]. split; [by rewrite Hbk|].
  split; [done|]. intros Hwf'.
  rewrite (revert_tracked wf' fs1 p _ Hl He Hwf'). by rewrite Hbk.
Qed.

(** X14: force.  When the operator answers force for a file in conflict
    (not named like a bookkeeping file) and [apply] succeeds, the patch
    replaces the modified file, no backup of it is taken and the entry
    records neither original checksum nor backup; the backup file of before
    the call is left as it was, and a [revert] whose copy onto that file does
    not fail puts it on the target, the file being removed when there is
    none.  The write failures of the [revert] are independent of those of
    the [apply]. *)
Theorem force_discards_modified h wf wf' fs fs1 (n : nat) files p c
    (k : conflict) :
  apply compute_checksum h wf fs = (fs1, Patched n) →
  patch_files fs = Some files →
  NoDup files.*1 →
  (p, c) ∈ files →
  ¬ bookkeeping_name p →
  check_conflicts compute_checksum p fs (load_state fs) = Some k →
  h p k = force →
  target fs1 !! p = Some c ∧
  load_state fs1 !! p
    = Some (mkPatchedFile p None (compute_checksum c) false) ∧
  backup fs1 !! p = backup fs !! p ∧
  (wf' p = false → target (revert wf' fs1).1 !! p = backup fs !! p).
Proof.
  intros Ha Hpf Hnd Hin _ Hc Hh.
  destruct (apply_Patched_spec _ _ _ _ _ _ _ Ha Hpf Hnd)
    as (ops & ns & Hplan & Hsf & _ & _ & Hl & _ & Hops & _).
  destruct (planned_lookup _ _ _ _ _ _ _ _ Hplan Hin) as (op & Hop & Hp1 & Hp2 & Hk).
  simpl in Hp1, Hp2, Hk. rewrite Hc in Hk.
  destruct Hk as [(_ & Hnb & Hfr)|(Hf & _)]; [|congruence].
  assert (fresh_backup (load_state fs) op = false) as Hfresh.
  { unfold fresh_backup. by rewrite Hnb. }
  destruct (Hops op Hop) as (_ & Htg & Hns & Hbk & _).
  rewrite Hp1, Hp2 in *. rewrite Hfresh in Hbk.
  assert (load_state fs1 !! p
          = Some (mkPatchedFile p None (compute_checksum c) false)) as He.
  { unfold load_state at 1. rewrite Hsf. simpl. rewrite Hns.
    unfold entry_of. by rewrite Hfresh, Hnb, Hp1, Hp2. }
  split; [done|]. split; [done|]. split; [done|]. intros Hwf'.
  rewrite (revert_tracked wf' fs1 p _ Hl He Hwf'). done.
Qed.

(** *** Patching again *)




(** *** The same patches applied again *)

(** An operation runs to its end when the copy onto its target file does not
    fail and the file to back up is there. *)
Lemma execute_op_runs wf st (op : Operation) fs :
  wf (op_relative_path op) = false →
  (fresh_backup st op = true → is_Some (target fs !! op_relative_path op)) →
  ∃ fs1 e, execute_op compute_checksum wf st op fs = (fs1, Some e) ∧
           target fs1 = <[op_relative_path op := op_patch_file op]> (target fs).
Proof.
  intros Hwf Hfresh. unfold execute_op, fresh_backup in *.
  destruct (op_needs_backup op); simpl in *.
  - destruct (bool_decide (st !! op_relative_path op = None)
              || negb (from_option has_backup false (st !! op_relative_path op))
              || op_force_rebackup op).
    + destruct (Hfresh eq_refl) as [c0 Hc0]. unfold backup_file.
      rewrite Hc0, Hwf. simpl. by eexists _, _.
    + rewrite Hwf. by eexists _, _.
  - rewrite Hwf. by eexists _, _.
Qed.

Lemma execute_runs wf st ops fs ns (pf : list path) :
  (∀ op, op ∈ ops →
     wf (op_relative_path op) = false ∧
     (fresh_backup st op = true → is_Some (target fs !! op_relative_path op))) →
  ∃ fs' ns',
    execute compute_checksum wf st ops fs ns pf
    = (fs', ns', pf ++ (op_relative_path <$> ops), true).
Proof.
  revert fs ns pf. induction ops as [|op rest IH]; intros fs ns pf Hall.
  { exists fs, ns. simpl. by rewrite app_nil_r. }
  destruct (Hall op) as [Hwf Hfresh]; [apply elem_of_cons; by left|].
  destruct (execute_op_runs wf st op fs Hwf Hfresh) as (fs1 & e & Hop & Ht).
  destruct (IH fs1 (<[op_relative_path op := e]> ns) (pf ++ [op_relative_path op]))
    as (fs' & ns' & Hex).
  { intros op' Hin. destruct (Hall op') as [Hwf' Hfresh'];
      [apply elem_of_cons; by right|].
    split; [done|]. intros Hf. rewrite Ht.
    destruct (decide (op_relative_path op = op_relative_path op')) as [->|Hne].
    - rewrite lookup_insert_eq. by eexists.
    - rewrite lookup_insert_ne by done. by apply Hfresh'. }
  exists fs', ns'. simpl. rewrite Hop, Hex.
  by rewrite <- app_assoc.
Qed.

Lemma plan_no_conflict h fs st files :
  (∀ p c, (p, c) ∈ files → check_conflicts compute_checksum p fs st = None) →
  ∃ ops, plan compute_checksum h fs st files = Some ops.
Proof.
  induction files as [|[p c] rest IH]; intros Hall; [by eexists|].
  destruct IH as [ops Hops].
  { intros q c' Hin. apply (Hall q c'). apply elem_of_cons. by right. }
  simpl. rewrite Hops.
  rewrite (Hall p c) by (apply elem_of_cons; by left).
  destruct (bool_decide (is_Some (target fs !! p))); by eexists.
Qed.

(** What a successful [apply] leaves at the path of each patch file. *)
Lemma apply_Patched_files h wf fs fs1 (n : nat) files p c :
  apply compute_checksum h wf fs = (fs1, Patched n) →
  patch_files fs = Some files →
  NoDup files.*1 →
  (p, c) ∈ files →
  wf p = false ∧ target fs1 !! p = Some c ∧
  ∃ e, load_state fs1 !! p = Some e ∧
       patched_checksum e = compute_checksum c.
Proof.
  intros Ha Hpf Hnd Hin.
  destruct (apply_Patched_spec _ _ _ _ _ _ _ Ha Hpf Hnd)
    as (ops & ns & Hplan & Hsf & _ & _ & _ & _ & Hops & _).
  destruct (planned_lookup _ _ _ _ _ _ _ _ Hplan Hin) as (op & Hop & Hp1 & Hp2 & _).
  simpl in Hp1, Hp2. destruct (Hops op Hop) as (Hwf & Htg & Hns & _).
  rewrite Hp1, Hp2 in *. split; [done|]. split; [done|].
  eexists. split; [unfold load_state; rewrite Hsf; exact Hns|].
  unfold entry_of. simpl. by rewrite Hp2.
Qed.

(** X16: right after a successful [apply], the planning pass of a second
    [apply] of the same patches finds no conflict for any of them, so that
    its result does not depend on what the operator would answer and it is
    never aborted; when that second run succeeds, it counts the same number
    of files and leaves every file of the target tree as it is.  The write
    failures of the second run are independent of those of the first, and
    its success is assumed, not shown. *)
Theorem reapply_same_patches h h' h'' wf wf' fs fs1 (n : nat) files :
  apply compute_checksum h wf fs = (fs1, Patched n) →
  patch_files fs = Some files →
  NoDup files.*1 →
  (∀ p c, (p, c) ∈ files →
     check_conflicts compute_checksum p fs1 (load_state fs1) = None) ∧
  apply compute_checksum h' wf' fs1 = apply compute_checksum h'' wf' fs1 ∧
  (apply compute_checksum h' wf' fs1).2 ≠ Aborted ∧
  (∀ fs2 n2, apply compute_checksum h' wf' fs1 = (fs2, Patched n2) →
     n2 = n ∧ target fs2 = target fs1).
Proof.
  intros Ha Hpf Hnd.
  pose proof (λ p c, apply_Patched_files h wf fs fs1 n files p c Ha Hpf Hnd)
    as Hfiles.
  destruct (apply_Patched_spec _ _ _ _ _ _ _ Ha Hpf Hnd)
    as (_ & ns1 & _ & Hsf1 & Hn & Hne & Hl1 & Hpf1 & _ & _).
  assert (∀ p c, (p, c) ∈ files →
            check_conflicts compute_checksum p fs1 (load_state fs1) = None)
    as Hnone.
  { intros p c Hin. destruct (Hfiles p c Hin) as (_ & Ht & e & He & Hpc).
    unfold check_conflicts. rewrite Ht, He.
    rewrite decide_False; [done|]. intros Hneq. by apply Hneq. }
  assert (∀ hh, plan compute_checksum hh (open_lock fs1) (load_state fs1) files
                = plan compute_checksum h (open_lock fs1) (load_state fs1) files)
    as Hplans.
  { intros hh. apply plan_ext. intros p c k Hin Hc.
    unfold check_conflicts in Hc.
    change (target (open_lock fs1)) with (target fs1) in Hc.
    pose proof (Hnone p c Hin) as Hn'. unfold check_conflicts in Hn'.
    by rewrite Hn' in Hc. }
  destruct (plan_no_conflict h (open_lock fs1) (load_state fs1) files)
    as [ops2 Hplan2].
  { intros p c Hin. pose proof (Hnone p c Hin) as Hn'.
    unfold check_conflicts in *.
    by change (target (open_lock fs1)) with (target fs1). }
  assert (∀ hh, apply compute_checksum hh wf' fs1
                = apply compute_checksum h wf' fs1) as Hindep.
  { intros hh. unfold apply.
    change (lock_held (open_lock fs1)) with (lock_held fs1).
    change (target_exists (open_lock fs1)) with (target_exists fs1).
    change (patch_files (open_lock fs1)) with (patch_files fs1).
    change (load_state (open_lock fs1)) with (load_state fs1).
    rewrite Hl1, Hpf1. destruct (target_exists fs1); [|done]. simpl.
    destruct files as [|f rest]; [done|].
    by rewrite (Hplans hh). }
  split; [exact Hnone|]. split; [by rewrite (Hindep h'), (Hindep h'')|].
  split.
  - rewrite (Hindep h'). unfold apply.
    change (lock_held (open_lock fs1)) with (lock_held fs1).
    change (target_exists (open_lock fs1)) with (target_exists fs1).
    change (patch_files (open_lock fs1)) with (patch_files fs1).
    change (load_state (open_lock fs1)) with (load_state fs1).
    rewrite Hl1, Hpf1. destruct (target_exists fs1); [|done]. simpl.
    destruct files as [|f rest]; [done|].
    rewrite Hplan2.
    by destruct (execute _ _ _ _ _ _ _) as [[[? ?] ?] []].
  - intros fs2 n2 Ha2.
    destruct (apply_Patched_spec _ _ _ _ _ _ _ Ha2 Hpf1 Hnd)
      as (ops' & ns2 & _ & _ & Hn2 & _ & _ & _ & _ & Hframe).
    split; [by rewrite Hn2, Hn|].
    apply map_eq. intros q.
    destruct (decide (q ∈ files.*1)) as [Hq|Hq].
    + apply list_elem_of_fmap in Hq as ([p c] & Hqp & Hin).
      simpl in Hqp. rewrite Hqp.
      destruct (apply_Patched_files _ _ _ _ _ _ _ _ Ha2 Hpf1 Hnd Hin)
        as (_ & Ht2 & _).
      destruct (Hfiles p c Hin) as (_ & Ht1 & _). by rewrite Ht2, Ht1.
    + by destruct (Hframe q Hq) as (-> & _).
Qed.

(** *** The backup tree *)

Lemma elem_of_prefixes (f d : path) :
  d ∈ prefixes f ↔ ∃ s : path, s ≠ [] ∧ f = d ++ s.
Proof.
  revert d. induction f as [|x f IH]; intros d; simpl.
  - split; [intros H; by apply elem_of_nil in H|].
    intros (s & Hs & E). symmetry in E. apply app_eq_nil in E as [_ ->]. done.
  - rewrite elem_of_cons, list_elem_of_fmap. split.
    + intros [->|(d' & -> & Hd')]; [by exists (x :: f)|].
      apply IH in Hd' as (s & Hs & ->). by exists s.
    + intros (s & Hs & E). destruct d as [|y d']; [by left|right].
      simpl in E. injection E as -> ->. exists d'. split; [done|].
      apply IH. by exists s.
Qed.

Lemma elem_of_parent_dirs (f d : path) :
  d ∈ parent_dirs f ↔ d ≠ [] ∧ ∃ s : path, s ≠ [] ∧ f = d ++ s.
Proof.
  unfold parent_dirs. rewrite elem_of_list_to_set, list_elem_of_filter.
  by rewrite elem_of_prefixes.
Qed.

Lemma is_parent_snoc (d : path) (x : string) : is_parent d (d ++ [x]) = true.
Proof.
  unfold is_parent. apply bool_decide_eq_true. split.
  - intros E. by apply app_eq_nil in E as [_ ?].
  - apply removelast_last.
Qed.

Lemma is_parent_inv (d x : path) :
  is_parent d x = true → ∃ y : string, x = d ++ [y].
Proof.
  unfold is_parent. intros H. apply bool_decide_eq_true in H as [Hne <-].
  exists (List.last x ""). by apply app_removelast_last.
Qed.

(** The clean-up keeps every directory that has a backup file somewhere
    below it, in a tree where the directories above each backup file
    exist. *)
Lemma prune_keeps_above fs (s : path) :
  backup_tree_ok fs →
  s ≠ [] →
  ∀ d, d ∈ backup_dirs fs → is_Some (backup fs !! (d ++ s)) →
       d ∈ backup_dirs (prune fs).
Proof.
  intros Hok.
  destruct (prune_spec fs) as (Hb & _ & _ & _ & _ & _ & _ & Hdirs).
  induction s as [|x s IH]; intros Hs d Hd Hf; [done|].
  apply Hdirs. split; [done|].
  exists (d ++ [x]). split; [|apply is_parent_snoc].
  destruct s as [|y s'].
  - apply elem_of_union. left. rewrite Hb. by apply elem_of_dom.
  - apply elem_of_union. right.
    rewrite (cons_middle x d (y :: s')), app_assoc in Hf.
    apply IH; [done| |done].
    apply (Hok ((d ++ [x]) ++ y :: s')); [done|].
    apply elem_of_parent_dirs. split.
    + intros E. by apply app_eq_nil in E as [_ ?].
    + by exists (y :: s').
Qed.

(** X17: in a backup tree where the directories above each backup file
    exist, the clean-up loop of [revert] removes exactly the directories
    that have no backup file anywhere below them. *)
Theorem prune_removes_exactly fs d :
  backup_tree_ok fs →
  d ∈ backup_dirs (prune fs)
  ↔ d ∈ backup_dirs fs ∧
    ∃ s : path, s ≠ [] ∧ is_Some (backup fs !! (d ++ s)).
Proof.
  intros Hok. split.
  - destruct (prune_spec fs) as (Hb & _ & _ & _ & _ & _ & _ & Hdirs).
    set (fs' := prune fs) in *.
    assert (∃ L, ∀ d0, d0 ∈ backup_dirs fs' → length d0 ≤ L) as [L HL].
    { assert (∀ (l : list path), ∃ L, ∀ d0, d0 ∈ l → length d0 ≤ L) as Hbound.
      { induction l as [|a l [L IH]];
          [exists 0; intros d0 Hd0; by apply elem_of_nil in Hd0|].
        exists (max (length a) L). intros d0 Hd0.
        apply elem_of_cons in Hd0 as [->|Hd0]; [lia|]. specialize (IH d0 Hd0). lia. }
      destruct (Hbound (elements (backup_dirs fs'))) as [L HL].
      exists L. intros d0 Hd0. apply HL. by apply elem_of_elements. }
    assert (∀ (n : nat) d0, d0 ∈ backup_dirs fs' → L < length d0 + n →
              ∃ s : path, s ≠ [] ∧ is_Some (backup fs !! (d0 ++ s))) as Hdown.
    { induction n as [|n IH]; intros d0 Hd0 Hlt.
      - specialize (HL d0 Hd0). lia.
      - apply Hdirs in Hd0 as [_ (x & Hx & Hp)].
        pose proof (is_parent_length _ _ Hp) as Hlen.
        apply is_parent_inv in Hp as [y ->].
        apply elem_of_union in Hx as [Hx|Hx].
        + exists [y]. split; [done|]. rewrite Hb in Hx. by apply elem_of_dom.
        + destruct (IH (d0 ++ [y]) Hx) as (s & Hs & Hf); [lia|].
          exists (y :: s). split; [done|].
          by rewrite (cons_middle y d0 s), app_assoc. }
    intros Hd. split; [by apply Hdirs in Hd as [? _]|].
    apply (Hdown (S L) d Hd). lia.
  - intros (Hd & s & Hs & Hf). by apply (prune_keeps_above fs s).
Qed.

Lemma backup_file_tree_ok p fs fs1 (r : option unit) :
  backup_tree_ok fs →
  backup_file p fs = (fs1, r) →
  backup_tree_ok fs1.
Proof.
  intros Hok H. apply backup_file_spec in H
    as (_ & _ & _ & _ & _ & _ & Hd & Hr).
  intros f d Hf Hin. rewrite Hd. apply elem_of_union.
  destruct r as [[]|].
  - destruct Hr as (c & _ & Hb). rewrite Hb in Hf.
    destruct (decide (p = f)) as [->|Hne]; [by right|].
    rewrite lookup_insert_ne in Hf by done. left. by apply (Hok f).
  - destruct Hr as [_ Hb]. rewrite Hb in Hf. left. by apply (Hok f).
Qed.

Lemma execute_op_tree_ok wf st (op : Operation) fs fs1 (r : option PatchedFile) :
  backup_tree_ok fs →
  execute_op compute_checksum wf st op fs = (fs1, r) →
  backup_tree_ok fs1.
Proof.
  intros Hok. unfold execute_op.
  destruct (op_needs_backup op); simpl.
  - destruct (bool_decide (st !! op_relative_path op = None)
              || negb (from_option has_backup false (st !! op_relative_path op))
              || op_force_rebackup op).
    + destruct (backup_file (op_relative_path op) fs) as [fs0 [[]|]] eqn:Hbf.
      * pose proof (backup_file_tree_ok _ _ _ _ Hok Hbf) as Hok0.
        destruct (wf (op_relative_path op)); by intros [= <- _].
      * pose proof (backup_file_tree_ok _ _ _ _ Hok Hbf) as Hok0.
        by intros [= <- _].
    + destruct (wf (op_relative_path op)); by intros [= <- _].
  - destruct (wf (op_relative_path op)); by intros [= <- _].
Qed.

Lemma execute_tree_ok wf st ops fs ns (pf : list path) fs' ns'
    (pf' : list path) (b : bool) :
  backup_tree_ok fs →
  execute compute_checksum wf st ops fs ns pf = (fs', ns', pf', b) →
  backup_tree_ok fs'.
Proof.
  revert fs ns pf. induction ops as [|op rest IH]; intros fs ns pf Hok H;
    simpl in H.
  { by injection H as <- _ _ _. }
  destruct (execute_op compute_checksum wf st op fs) as [fs1 [e|]] eqn:Hop.
  - eapply IH; [|exact H]. by eapply execute_op_tree_ok.
  - injection H as <- _ _ _. by eapply execute_op_tree_ok.
Qed.

(** X18: [apply] and [revert] keep the backup tree in order: when the
    directories above every backup file exist before the call, they do
    after it, whatever the outcome. *)
Theorem backup_tree_ok_preserved h wf fs :
  backup_tree_ok fs →
  backup_tree_ok (apply compute_checksum h wf fs).1 ∧
  backup_tree_ok (revert wf fs).1.
Proof.
  intros Hok. split.
  - destruct (apply compute_checksum h wf fs) as [fs' o] eqn:Ha. simpl.
    destruct (apply_cases h wf fs) as [E|[[n E]|E]]; rewrite Ha in E; simpl in E.
    + by subst fs'.
    + subst o. apply apply_Patched_inv in Ha
        as (files & ops & fs1 & ns & pf & _ & _ & _ & _ & _ & Hex & -> & _).
      change (backup_tree_ok (save_state ns fs1)) with (backup_tree_ok fs1).
      eapply execute_tree_ok; [|exact Hex]. exact Hok.
    + subst o. apply apply_Failed_inv in Ha
        as (files & ops & fs1 & ns & pf & _ & _ & Hex & ->).
      assert (backup_tree_ok fs1) as Hok1
        by (eapply execute_tree_ok; [|exact Hex]; exact Hok).
      destruct (rollback_spec wf pf fs1) as (_ & Hd & _ & _ & _ & _ & Hb).
      intros f d Hf Hin. simpl in *. rewrite Hb in Hf. rewrite Hd.
      by apply (Hok1 f).
  - unfold revert. destruct (lock_held (open_lock fs)); [done|].
    destruct (decide (load_state (open_lock fs) = ∅)); [done|]. simpl.
    set (ps := (map_to_list (load_state (open_lock fs))).*1).
    destruct (restore_all_spec wf ps (open_lock fs) (NoDup_fst_map_to_list _))
      as (_ & Hd & _ & _ & _ & _ & Hout & Hin).
    set (fs1 := restore_all wf ps (open_lock fs)) in *.
    assert (backup_tree_ok (set_state_file None fs1)) as Hok1.
    { intros f d Hf Hdin. simpl in *. rewrite Hd. apply (Hok f); [|done].
      destruct (decide (f ∈ ps)) as [Hfp|Hfp].
      - specialize (Hin f Hfp). simpl in Hin.
        change (backup (open_lock fs)) with (backup fs) in Hin.
        destruct (backup fs !! f) as [c|]; [by eexists|].
        destruct Hin as [_ Hn]. rewrite Hn in Hf. by destruct Hf.
      - destruct (Hout f Hfp) as [_ Hb]. by rewrite Hb in Hf. }
    destruct (prune_spec (set_state_file None fs1)) as (Hb & _).
    intros f d Hf Hdin. rewrite Hb in Hf.
    apply elem_of_parent_dirs in Hdin as Hdin'. destruct Hdin' as (_ & s & Hs & ->).
    apply (prune_keeps_above _ s Hok1 Hs); [|done].
    by apply (Hok1 (d ++ s)).
Qed.

End EngineProperties.

(** ** The properties on concrete runs *)

Ltac by_computation :=
  match goal with |- ?P => apply (bool_decide_unpack P) end;
  vm_compute; exact I.

Lemma status_classifies_witness :
  load_state test_env_edited !! file1
    = Some (mkPatchedFile file1 (Some "original content 1") "patched content 1" true) ∧
  ∃ lines counts s,
    status digest_id test_env_edited = Some (lines, counts) ∧
    (s, file1) ∈ lines ∧
    (∀ s', (s', file1) ∈ lines → s' = s) ∧
    (s = MISSING ↔ target test_env_edited !! file1 = None) ∧
    (s = clean ↔ ∃ c, target test_env_edited !! file1 = Some c ∧
                      digest_id c = "patched content 1") ∧
    (s = MODIFIED ↔ ∃ c, target test_env_edited !! file1 = Some c ∧
                         digest_id c ≠ "patched content 1").
Proof.
  split; [vm_compute; reflexivity|].
  apply (status_classifies digest_id test_env_edited file1
           (mkPatchedFile file1 (Some "original content 1") "patched content 1" true)).
  vm_compute; reflexivity.
Defined.

(** The lines of test 4 and test 16. *)
Example status_edited :
  status digest_id test_env_edited
  = Some ([(MODIFIED, file1); (clean, file2); (clean, newfile)], (2, 1, 0)).
Proof. vm_compute. reflexivity. Qed.

Example status_deleted :
  status digest_id test_env_deleted
  = Some ([(MISSING, file1); (clean, file2); (clean, newfile)], (2, 0, 1)).
Proof. vm_compute. reflexivity. Qed.

Lemma apply_preconditions_witness :
  lock_held test_env = false ∧
  (apply digest_id (always abort) writable
         (set_patch_files (Some []) test_env)).2 = NoPatchFiles.
Proof.
  split; [reflexivity|].
  apply (apply_preconditions digest_id (always abort) writable
           (set_patch_files (Some []) test_env)); reflexivity.
Defined.

Lemma abort_no_side_effects_witness :
  (apply digest_id (always abort) writable test_env_edited).2 = Aborted ∧
  exit_code (apply digest_id (always abort) writable test_env_edited).2 = 0 ∧
  target (apply digest_id (always abort) writable test_env_edited).1
    = target test_env_edited ∧
  backup (apply digest_id (always abort) writable test_env_edited).1
    = backup test_env_edited ∧
  backup_dirs (apply digest_id (always abort) writable test_env_edited).1
    = backup_dirs test_env_edited ∧
  state_file (apply digest_id (always abort) writable test_env_edited).1
    = state_file test_env_edited.
Proof.
  apply (abort_no_side_effects digest_id (always abort) writable test_env_edited
           [ (file1, "patched content 1"); (file2, "patched content 2");
             (newfile, "new file content") ]
           file1 "patched content 1" modified).
  - reflexivity.
  - reflexivity.
  - reflexivity.
  - apply elem_of_cons. by left.
  - vm_compute. reflexivity.
  - reflexivity.
Defined.

Lemma apply_tracked_missing_witness :
  target (apply digest_id (always abort) writable test_env_deleted).1 !! file1
    = Some "patched content 1" ∧
  load_state (apply digest_id (always abort) writable test_env_deleted).1 !! file1
    = Some (mkPatchedFile file1 None "patched content 1" false) ∧
  backup (apply digest_id (always abort) writable test_env_deleted).1 !! file1
    = Some "original content 1".
Proof.
  destruct (apply_tracked_missing digest_id (always abort) writable test_env_deleted
              (apply digest_id (always abort) writable test_env_deleted).1 3
              [ (file1, "patched content 1"); (file2, "patched content 2");
                (newfile, "new file content") ]
              file1 "patched content 1"
              (mkPatchedFile file1 (Some "original content 1") "patched content 1" true))
    as (_ & _ & Ht & Hs & Hb).
  - vm_compute. reflexivity.
  - reflexivity.
  - by_computation.
  - apply elem_of_cons. by left.
  - vm_compute. reflexivity.
  - vm_compute. reflexivity.
  - split; [exact Ht|]. split; [exact Hs|]. rewrite Hb. vm_compute. reflexivity.
Defined.


(** test_repatching_preserves_original_checksum: the second [apply] keeps
    the checksum of the original file1. *)
Example repatching_preserves_file1 :
  load_state (apply digest_id (always abort) writable test_env_v2).1 !! file1
  = Some (mkPatchedFile file1 (Some "original content 1") "patched content v2" true).
Proof. vm_compute. reflexivity. Qed.



(** The two directories made for the backup of data/maps/m.bin are removed
    again, the deeper one first. *)
Example revert_prunes_subdirectories :
  elements (backup_dirs sub_env_patched) = [["data"; "maps"]; ["data"]] ∧
  backup_dirs (revert writable sub_env_patched).1 = ∅.
Proof. split; vm_compute; reflexivity. Qed.

Lemma apply_revert_roundtrip_witness :
  (revert (read_only newfile) (apply digest_id (always abort) writable
                                 sub_env).1).2 = Reverted 1 ∧
  (∀ p c, target sub_env !! p = Some c →
          target (revert (read_only newfile)
                    (apply digest_id (always abort) writable sub_env).1).1 !! p
          = Some c) ∧
  (∀ p, target sub_env !! p = None →
        target (revert (read_only newfile)
                  (apply digest_id (always abort) writable sub_env).1).1 !! p
        = None) ∧
  state_file (revert (read_only newfile)
                (apply digest_id (always abort) writable sub_env).1).1 = None.
Proof.
  apply (apply_revert_roundtrip digest_id (always abort) writable
           (read_only newfile) sub_env
           (apply digest_id (always abort) writable sub_env).1 1
           [ (["data"; "maps"; "m.bin"], "map2") ]).
  - reflexivity.
  - by_computation.
  - by_computation.
  - reflexivity.
  - intros p _ _. apply lookup_empty.
  - vm_compute. reflexivity.
  - intros p Hp. apply list_elem_of_singleton in Hp as ->. reflexivity.
Defined.

(** The round trip of test_happy_path_apply_and_revert. *)
Example apply_revert_test_env :
  target (revert writable test_env_patched).1 = target test_env ∧
  (revert writable test_env_patched).2 = Reverted 3.
Proof. split; vm_compute; reflexivity. Qed.

(** C1 (as stated) fails: the second [apply] of the same patches meets no
    conflict and succeeds, and [revert] then puts back the original file1,
    not the patched content that was there before this [apply]. *)
Lemma roundtrip_unconditional_fails : ¬ roundtrip_unconditional digest_id.
Proof.
  intros H.
  specialize (H (always abort) writable test_env_patched
                (apply digest_id (always abort) writable test_env_patched).1 3
                [ (file1, "patched content 1"); (file2, "patched content 2");
                  (newfile, "new file content") ]).
  destruct H as [Hold _].
  - reflexivity.
  - by_computation.
  - intros p c Hp.
    repeat (apply elem_of_cons in Hp as [[= -> ->]|Hp]; [vm_compute; reflexivity|]).
    by apply elem_of_nil in Hp.
  - vm_compute. reflexivity.
  - specialize (Hold file1 "patched content 1").
    assert (target test_env_patched !! file1 = Some "patched content 1") as E0
      by (vm_compute; reflexivity).
    specialize (Hold E0). vm_compute in Hold. discriminate Hold.
Qed.

(** A backup left behind at the path of a file that [apply] creates comes
    back on [revert]: after file1 was deleted by hand, the next [apply]
    creates it, and [revert] restores the old backup instead of removing the
    file. *)
Example revert_restores_stale_backup :
  target test_env_deleted !! file1 = None ∧
  (apply digest_id (always abort) writable test_env_deleted).2 = Patched 3 ∧
  target (revert writable
            (apply digest_id (always abort) writable test_env_deleted).1).1 !! file1
    = Some "original content 1".
Proof. repeat split; vm_compute; reflexivity. Qed.


(** C2: the second [apply] of test_rollback_preserves_existing_backups,
    file2 made read-only.  file1 is patched again, the copy onto file2
    raises, and the rollback restores file1 from its backup: the state file
    and the backups are those of before the call, but file1 holds the
    original content, no longer the patched content it had before the
    call. *)
Theorem rollback_restores_baseline :
  let r := apply digest_id (always abort) (read_only file2) test_env_patched in
  r.2 = Failed PatchingFailed ∧
  state_file r.1 = state_file test_env_patched ∧
  backup r.1 = backup test_env_patched ∧
  target test_env_patched !! file1 = Some "patched content 1" ∧
  target r.1 !! file1 = Some "original content 1".
Proof. repeat split; vm_compute; reflexivity. Qed.

(** *** The prompt and the chunked checksum on concrete inputs *)

Lemma handle_conflict_first_valid_witness :
  handle_conflict ascii_lower ascii_strip file1 modified
    (["x"; ""] ++ "  R " :: ["a"]) = (Some re_backup, ["a"]).
Proof.
  apply (handle_conflict_first_valid ascii_lower ascii_strip file1 modified
           ["x"; ""] "  R " ["a"] re_backup).
  - repeat constructor.
  - vm_compute. reflexivity.
Defined.

Lemma handle_conflict_eof_iff_witness :
  (handle_conflict ascii_lower ascii_strip file1 modified ["yes"; "no"; ""]).1
  = None.
Proof.
  apply (handle_conflict_eof_iff ascii_lower ascii_strip file1 modified
           ["yes"; "no"; ""]).
  repeat constructor.
Defined.

Lemma apply_stdin_refines_witness :
  ∃ h, apply digest_id h writable test_env_edited
       = ((apply_stdin ascii_lower ascii_strip digest_id ["r"] writable
             test_env_edited).1, Patched 3).
Proof.
  apply (apply_stdin_refines ascii_lower ascii_strip digest_id ["r"] writable
           test_env_edited).
  - intros files Hf. vm_compute in Hf. injection Hf as <-. by_computation.
  - vm_compute. reflexivity.
Defined.

Lemma apply_stdin_eof_witness :
  apply_stdin ascii_lower ascii_strip digest_id ["maybe"; "q"] writable
    test_env_edited = (open_lock test_env_edited, None) ∧
  exit_status
    (apply_stdin ascii_lower ascii_strip digest_id ["maybe"; "q"] writable
       test_env_edited).2 = 1.
Proof.
  apply (apply_stdin_eof ascii_lower ascii_strip digest_id ["maybe"; "q"]
           writable test_env_edited
           [ (file1, "patched content 1"); (file2, "patched content 2");
             (newfile, "new file content") ]
           file1 "patched content 1" modified).
  - reflexivity.
  - reflexivity.
  - reflexivity.
  - apply elem_of_cons. by left.
  - vm_compute. reflexivity.
  - repeat constructor.
Defined.

Lemma compute_checksum_chunked_whole_witness :
  compute_checksum_chunked (list Ascii.ascii) [] fed_bytes
    String.string_of_list_ascii (String.list_ascii_of_string "original content 1")
  = Some "original content 1".
Proof.
  rewrite (compute_checksum_chunked_whole (list Ascii.ascii) [] fed_bytes
             String.string_of_list_ascii).
  - reflexivity.
  - intros h. apply app_nil_r.
  - intros h a b. unfold fed_bytes. by rewrite app_assoc.
Defined.

(** *** More runs of the engine *)


(** The same frame when the [apply] fails and rolls back. *)
Example apply_frame_rollback :
  (apply digest_id (always abort) (read_only file1) test_env_file1_only).2
    = Failed PatchingFailed ∧
  target (apply digest_id (always abort) (read_only file1)
            test_env_file1_only).1 !! file2 = Some "patched content 2" ∧
  backup (apply digest_id (always abort) (read_only file1)
            test_env_file1_only).1 !! file2 = Some "original content 2".
Proof. repeat split; vm_compute; reflexivity. Qed.

Lemma apply_keeps_backups_witness :
  is_Some (backup (apply digest_id (always force) writable test_env_edited).1
             !! file1).
Proof.
  apply (apply_keeps_backups digest_id (always force) writable test_env_edited
           file1).
  vm_compute. by eexists.
Defined.

(** The first [apply] of the test environment with file2 read-only: file1
    is patched, the copy onto file2 raises, and the rollback, with write
    failures of its own elsewhere, puts the original file1 back. *)
Lemma rollback_restores_patched_files_witness :
  target
    (rollback (read_only newfile) [file1]
       (execute digest_id (read_only file2) ∅
          [ mkOperation "patched content 1" file1 true false;
            mkOperation "patched content 2" file2 true false;
            mkOperation "new file content" newfile false false ]
          test_env ∅ []).1.1.1) !! file1
  = Some "original content 1".
Proof.
  destruct (rollback_restores_patched_files digest_id (always abort)
              (read_only file2) (read_only newfile) test_env
              [ (file1, "patched content 1"); (file2, "patched content 2");
                (newfile, "new file content") ]
              [ mkOperation "patched content 1" file1 true false;
                mkOperation "patched content 2" file2 true false;
                mkOperation "new file content" newfile false false ]
              (execute digest_id (read_only file2) ∅
                 [ mkOperation "patched content 1" file1 true false;
                   mkOperation "patched content 2" file2 true false;
                   mkOperation "new file content" newfile false false ]
                 test_env ∅ []).1.1.1
              (execute digest_id (read_only file2) ∅
                 [ mkOperation "patched content 1" file1 true false;
                   mkOperation "patched content 2" file2 true false;
                   mkOperation "new file content" newfile false false ]
                 test_env ∅ []).1.1.2
              [file1]) as (Hin & _ & _).
  - by_computation.
  - by_computation.
  - intros p _. apply lookup_empty.
  - intros p _ _. apply lookup_empty.
  - vm_compute. reflexivity.
  - vm_compute. reflexivity.
  - intros p Hp. apply list_elem_of_singleton in Hp as ->. reflexivity.
  - rewrite (Hin file1) by (apply list_elem_of_singleton; reflexivity).
    vm_compute. reflexivity.
Defined.

Lemma status_after_apply_witness :
  ∃ lines counts,
    status digest_id (apply digest_id (always force) writable test_env_edited).1
      = Some (lines, counts) ∧ (clean, file1) ∈ lines.
Proof.
  apply (status_after_apply digest_id (always force) writable test_env_edited
           (apply digest_id (always force) writable test_env_edited).1 3
           [ (file1, "patched content 1"); (file2, "patched content 2");
             (newfile, "new file content") ]
           file1 "patched content 1").
  - vm_compute. reflexivity.
  - reflexivity.
  - by_computation.
  - apply elem_of_cons. by left.
Defined.

Lemma status_counts_witness :
  length [(MODIFIED, file1); (clean, file2); (clean, newfile)]
    = size (load_state test_env_edited) ∧
  2 + 1 + 0 = size (load_state test_env_edited).
Proof.
  apply (status_counts digest_id test_env_edited
           [(MODIFIED, file1); (clean, file2); (clean, newfile)] 2 1 0).
  vm_compute. reflexivity.
Defined.

Lemma revert_twice_witness :
  revert writable (revert writable sub_env_patched).1
  = ((revert writable sub_env_patched).1, NoPatchesApplied).
Proof. apply (revert_twice writable writable sub_env_patched). reflexivity. Defined.

Lemma revert_empties_backup_root_witness :
  backup (revert writable sub_env_patched).1 = ∅ ∧
  backup_dirs (revert writable sub_env_patched).1 = ∅ ∧
  state_file (revert writable sub_env_patched).1 = None.
Proof.
  apply (revert_empties_backup_root writable sub_env_patched).
  - reflexivity.
  - intros H.
    apply (f_equal (λ m : gmap path PatchedFile, m !! ["data"; "maps"; "m.bin"])) in H.
    vm_compute in H. discriminate H.
  - intros p [c Hp]. split; [|reflexivity].
    destruct (decide (p = ["data"; "maps"; "m.bin"])) as [->|Hne].
    + vm_compute. by eexists.
    + exfalso.
      assert (backup sub_env_patched = {[ ["data"; "maps"; "m.bin"] := "map" ]})
        as E by (vm_compute; reflexivity).
      rewrite E, lookup_singleton_ne in Hp by done. discriminate Hp.
Defined.

(** test_conflict_resolution_rebackup; the [revert] has its own write
    failures, here on another file. *)
Lemma rebackup_keeps_modified_witness :
  ∃ m, target test_env_edited !! file1 = Some m ∧
       target (apply digest_id (always re_backup) writable test_env_edited).1
         !! file1 = Some "patched content 1" ∧
       backup (apply digest_id (always re_backup) writable test_env_edited).1
         !! file1 = Some m ∧
       load_state (apply digest_id (always re_backup) writable test_env_edited).1
         !! file1
         = Some (mkPatchedFile file1 (Some (digest_id m))
                               (digest_id "patched content 1") true) ∧
       target (revert (read_only file2)
                 (apply digest_id (always re_backup) writable test_env_edited).1).1
         !! file1 = Some m.
Proof.
  destruct (rebackup_keeps_modified digest_id (always re_backup) writable
              (read_only file2) test_env_edited
              (apply digest_id (always re_backup) writable test_env_edited).1 3
              [ (file1, "patched content 1"); (file2, "patched content 2");
                (newfile, "new file content") ]
              file1 "patched content 1" modified)
    as (m & H1 & H2 & H3 & H4 & H5).
  - vm_compute. reflexivity.
  - reflexivity.
  - by_computation.
  - apply elem_of_cons. by left.
  - by_computation.
  - vm_compute. reflexivity.
  - reflexivity.
  - exists m. repeat (split; [assumption|]). apply H5. reflexivity.
Defined.

(** test_conflict_resolution_force *)
Lemma force_discards_modified_witness :
  target (apply digest_id (always force) writable test_env_edited).1 !! file1
    = Some "patched content 1" ∧
  load_state (apply digest_id (always force) writable test_env_edited).1 !! file1
    = Some (mkPatchedFile file1 None (digest_id "patched content 1") false) ∧
  backup (apply digest_id (always force) writable test_env_edited).1 !! file1
    = backup test_env_edited !! file1 ∧
  target (revert (read_only file2)
            (apply digest_id (always force) writable test_env_edited).1).1 !! file1
    = backup test_env_edited !! file1.
Proof.
  destruct (force_discards_modified digest_id (always force) writable
              (read_only file2) test_env_edited
              (apply digest_id (always force) writable test_env_edited).1 3
              [ (file1, "patched content 1"); (file2, "patched content 2");
                (newfile, "new file content") ]
              file1 "patched content 1" modified)
    as (H1 & H2 & H3 & H4).
  - vm_compute. reflexivity.
  - reflexivity.
  - by_computation.
  - apply elem_of_cons. by left.
  - by_computation.
  - vm_compute. reflexivity.
  - reflexivity.
  - repeat (split; [assumption|]). apply H4. reflexivity.
Defined.

(** A [revert] whose copy onto the file fails leaves the patch in place and
    forgets the file all the same. *)
Example revert_read_only_leaves_patch :
  target (revert (read_only file1)
            (apply digest_id (always re_backup) writable test_env_edited).1).1
    !! file1 = Some "patched content 1" ∧
  state_file (revert (read_only file1)
                (apply digest_id (always re_backup) writable test_env_edited).1).1
    = None.
Proof. split; vm_compute; reflexivity. Qed.


Lemma reapply_same_patches_witness :
  check_conflicts digest_id file1 test_env_patched
    (load_state test_env_patched) = None ∧
  target (apply digest_id (always abort) writable test_env_patched).1
  = target test_env_patched.
Proof.
  destruct (reapply_same_patches digest_id (always re_backup) (always abort)
              (always force) writable writable test_env test_env_patched 3
              [ (file1, "patched content 1"); (file2, "patched content 2");
                (newfile, "new file content") ])
    as (Hnone & _ & _ & Hsame).
  - vm_compute. reflexivity.
  - reflexivity.
  - by_computation.
  - split.
    + apply (Hnone file1 "patched content 1"). apply elem_of_cons. by left.
    + apply (Hsame (apply digest_id (always abort) writable
                      test_env_patched).1 3).
      vm_compute. reflexivity.
Defined.

Lemma prune_removes_exactly_witness :
  ["data"] ∈ backup_dirs (prune sub_env_patched).
Proof.
  apply (prune_removes_exactly sub_env_patched ["data"]).
  - intros f d [c Hf] Hd.
    destruct (decide (f = ["data"; "maps"; "m.bin"])) as [->|Hne].
    + assert (d ∈ elements (parent_dirs ["data"; "maps"; "m.bin"])) as Hel
        by (by apply elem_of_elements).
      vm_compute in Hel.
      repeat (apply elem_of_cons in Hel as [->|Hel]; [by_computation|]).
      by apply elem_of_nil in Hel.
    + exfalso.
      assert (backup sub_env_patched = {[ ["data"; "maps"; "m.bin"] := "map" ]})
        as E by (vm_compute; reflexivity).
      rewrite E, lookup_singleton_ne in Hf by done. discriminate Hf.
  - split; [by_computation|].
    exists ["maps"; "m.bin"]. split; [done|]. vm_compute. by eexists.
Defined.

Lemma backup_tree_ok_preserved_witness :
  backup_tree_ok (apply digest_id (always abort) writable sub_env).1 ∧
  backup_tree_ok (revert writable sub_env).1.
Proof.
  apply (backup_tree_ok_preserved digest_id (always abort) writable sub_env).
  intros f d [c Hf] _. exfalso.
  change (backup sub_env) with (∅ : gmap path content) in Hf.
  by rewrite lookup_empty in Hf.
Defined.
